(** * lb5: a graphic editor with composite shapes and an undo/redo history

    A shallow embedding of [src/lb5.cpp].  The C++ program keeps every
    graphic object behind a [shared_ptr]; two pointers to one object see
    each other's mutations.  The embedding therefore has an explicit
    store ([heap]) of objects addressed by locations, and the vectors of
    the program ([Group::children], [EditorFacade::objects]) are lists of
    locations.

    [int] is the 32-bit two's-complement integer of the usual targets.
    Signed overflow is undefined in C++; the model takes the wrap-around
    those targets compute, written out in [wrap]. *)

From stdpp Require Import gmap list strings pretty.
From Stdlib Require Import ZArith Lia Ascii.

Local Open Scope Z_scope.

(** ** 32-bit [int] arithmetic *)

Module Int.

Definition min_int : Z := -2147483648.
Definition max_int : Z := 2147483647.
Definition modulus : Z := 4294967296.

Definition in_range (z : Z) : Prop := min_int <= z <= max_int.

Definition wrap (z : Z) : Z := (z + 2147483648) mod modulus - 2147483648.

Definition add (a b : Z) : Z := wrap (a + b).
Definition sub (a b : Z) : Z := wrap (a - b).
Definition mul (a b : Z) : Z := wrap (a * b).

End Int.

(** ** The store of graphic objects *)

Abbreviation loc := positive.

(** One object of the class hierarchy under [GraphicObject]: the fields
    [x], [y] of the base class, then those of the derived class. *)
Inductive GraphicObject : Type :=
| Circle (x y radius : Z)
| Rectangle (x y width height : Z)
| Group (x y : Z) (children : list loc).

Abbreviation heap := (gmap loc GraphicObject).

Definition getX (o : GraphicObject) : Z :=
  match o with Circle x _ _ | Rectangle x _ _ _ | Group x _ _ => x end.

Definition getY (o : GraphicObject) : Z :=
  match o with Circle _ y _ | Rectangle _ y _ _ | Group _ y _ => y end.

(** [make_shared<T>(...)]: a new object at an address no live object has. *)
Definition make_shared (h : heap) (o : GraphicObject) : heap * loc :=
  let p := fresh (dom h) in (<[p := o]> h, p).

(** [GraphicObject::move], inherited unchanged by every derived class. *)
Definition move_obj (dx dy : Z) (o : GraphicObject) : GraphicObject :=
  match o with
  | Circle x y r => Circle (Int.add x dx) (Int.add y dy) r
  | Rectangle x y w hh => Rectangle (Int.add x dx) (Int.add y dy) w hh
  | Group x y cs => Group (Int.add x dx) (Int.add y dy) cs
  end.

Definition move (h : heap) (p : loc) (dx dy : Z) : heap :=
  match h !! p with
  | Some o => <[p := move_obj dx dy o]> h
  | None => h
  end.

(** [Group::add]: [children.push_back(obj)]. *)
Definition add (h : heap) (g : loc) (obj : loc) : heap :=
  match h !! g with
  | Some (Group x y cs) => <[g := Group x y (cs ++ [obj])]> h
  | _ => h
  end.

(** The loop over a vector from [rbegin()] to [rend()] that returns
    [found c] at the first element [c] passing [test], and [none] when
    the iterator reaches [rend()]; it is the body shared by
    [Group::containsPoint], [Group::findDeepest] and
    [EditorFacade::findElementAt], which call it on the reversed vector.
    [test] yields [None] when the call it stands for does not return. *)
Fixpoint scan {A : Type} (test : loc -> option bool)
    (found : loc -> option A) (none : option A) (l : list loc) : option A :=
  match l with
  | [] => none
  | c :: l' =>
      match test c with
      | None => None
      | Some true => found c
      | Some false => scan test found none l'
      end
  end.

(** [containsPoint], dispatched on the dynamic type of [*p].  The
    recursion of [Group::containsPoint] follows pointers, so it is
    bounded by [fuel]; [None] is "no answer within [fuel] nested calls"
    (or a pointer outside the store, which [shared_ptr] rules out). *)
Fixpoint containsPoint (fuel : nat) (h : heap) (p : loc) (px py : Z)
    : option bool :=
  match fuel with
  | O => None
  | S n =>
      match h !! p with
      | None => None
      | Some (Circle x y radius) =>
          let dx := Int.sub px x in
          let dy := Int.sub py y in
          Some (Int.add (Int.mul dx dx) (Int.mul dy dy)
                  <=? Int.mul radius radius)
      | Some (Rectangle x y width height) =>
          Some ((px >=? x) && (px <=? Int.add x width)
                && (py >=? y) && (py <=? Int.add y height))
      | Some (Group x y children) =>
          scan (fun c => containsPoint n h c (Int.sub px x) (Int.sub py y))
               (fun _ => Some true) (Some false) (rev children)
      end
  end.

Definition is_group (h : heap) (p : loc) : bool :=
  match h !! p with Some (Group _ _ _) => true | _ => false end.

(** [Group::findDeepest]; [None] as for [containsPoint], and when [*g]
    is not a [Group] (the method does not exist there). *)
Fixpoint findDeepest (fuel : nat) (h : heap) (g : loc) (px py : Z)
    : option loc :=
  match fuel with
  | O => None
  | S n =>
      match h !! g with
      | Some (Group x y children) =>
          scan (fun c => containsPoint n h c (Int.sub px x) (Int.sub py y))
               (fun c => if is_group h c
                         then findDeepest n h c (Int.sub px x) (Int.sub py y)
                         else Some c)
               (Some g) (rev children)
      | _ => None
      end
  end.

(** [clone], dispatched on the dynamic type of [*p].  [Circle::clone]
    and [Rectangle::clone] copy-construct into a new object.
    [Group::clone] first makes the new, empty group, then clones the
    children in order and [add]s each clone to it. *)
Fixpoint clone_children (cl : heap -> loc -> option (heap * loc))
    (newGroup : loc) (children : list loc) (h : heap) : option (heap * loc) :=
  match children with
  | [] => Some (h, newGroup)
  | child :: rest =>
      match cl h child with
      | None => None
      | Some (h', child') => clone_children cl newGroup rest (add h' newGroup child')
      end
  end.

Fixpoint clone (fuel : nat) (h : heap) (p : loc) : option (heap * loc) :=
  match fuel with
  | O => None
  | S n =>
      match h !! p with
      | None => None
      | Some (Circle x y radius) => Some (make_shared h (Circle x y radius))
      | Some (Rectangle x y width height) =>
          Some (make_shared h (Rectangle x y width height))
      | Some (Group x y children) =>
          let '(h1, newGroup) := make_shared h (Group x y []) in
          clone_children (clone n) newGroup children h1
      end
  end.

(** ** What a pointer denotes

    The value of the object graph under a pointer: every coordinate and
    size reachable from it, as a tree.  [snapshot n h p = Some s] also
    says that the graph under [p] is finite and acyclic with at most [n]
    levels, which is what the recursive methods need to return. *)
#[warnings="-register-all"]
Inductive Shape : Type :=
| SCircle (x y radius : Z)
| SRectangle (x y width height : Z)
| SGroup (x y : Z) (children : list Shape).

Fixpoint snapshot (fuel : nat) (h : heap) (p : loc) : option Shape :=
  match fuel with
  | O => None
  | S n =>
      match h !! p with
      | None => None
      | Some (Circle x y r) => Some (SCircle x y r)
      | Some (Rectangle x y w hh) => Some (SRectangle x y w hh)
      | Some (Group x y cs) => SGroup x y <$> mapM (snapshot n h) cs
      end
  end.

(** The objects reachable from [p]: [p] itself and its descendants. *)
Fixpoint reach (fuel : nat) (h : heap) (p : loc) : gset loc :=
  match fuel with
  | O => ∅
  | S n =>
      {[p]} ∪ match h !! p with
              | Some (Group _ _ cs) => ⋃ (reach n h <$> cs)
              | _ => ∅
              end
  end.

(** [containsPoint] read on the value of a shape.  For a group it is
    the disjunction over the children, which the order of the scan does
    not change. *)
Fixpoint Shape_contains (s : Shape) (px py : Z) : bool :=
  match s with
  | SCircle x y radius =>
      let dx := Int.sub px x in
      let dy := Int.sub py y in
      Int.add (Int.mul dx dx) (Int.mul dy dy) <=? Int.mul radius radius
  | SRectangle x y width height =>
      (px >=? x) && (px <=? Int.add x width)
      && (py >=? y) && (py <=? Int.add y height)
  | SGroup x y children =>
      existsb (fun c => Shape_contains c (Int.sub px x) (Int.sub py y)) children
  end.

(** [move] read on the value of a shape: the origin of the root changes,
    nothing below it does. *)
Definition Shape_move (dx dy : Z) (s : Shape) : Shape :=
  match s with
  | SCircle x y r => SCircle (Int.add x dx) (Int.add y dy) r
  | SRectangle x y w hh => SRectangle (Int.add x dx) (Int.add y dy) w hh
  | SGroup x y ss => SGroup (Int.add x dx) (Int.add y dy) ss
  end.

(** A sequence of calls [p->move(dx, dy)], each given as [(p, (dx, dy))]. *)
Definition moves (h : heap) (ms : list (loc * (Z * Z))) : heap :=
  foldl (fun h' m => move h' m.1 m.2.1 m.2.2) h ms.

(** ** Commands and the editor facade *)

(** The only command class.  Its reference member [objects] is bound at
    the one construction site, [EditorFacade::addObject], to the
    facade's own vector, so the command is its [obj] and acts on that
    vector. *)
Inductive Command : Type :=
| AddCommand (obj : loc).

Definition cmd_obj (c : Command) : loc := match c with AddCommand o => o end.

Definition execute (c : Command) (objects : list loc) : list loc :=
  objects ++ [cmd_obj c].

Definition pop_back (objects : list loc) : list loc := removelast objects.

(** [AddCommand::undo]: [if (!objects.empty()) objects.pop_back();] *)
Definition cmd_undo (c : Command) (objects : list loc) : list loc :=
  match objects with
  | [] => objects
  | _ :: _ => pop_back objects
  end.

(** Stacks keep their top at the head of the list. *)
Record EditorFacade : Type := mkEditor {
  objects : list loc;
  undoStack : list Command;
  redoStack : list Command
}.

Definition empty_editor : EditorFacade := mkEditor [] [] [].

(** [while (!redoStack.empty()) redoStack.pop();] *)
Fixpoint pop_all (st : list Command) : list Command :=
  match st with
  | [] => []
  | _ :: st' => pop_all st'
  end.

Definition addObject (obj : loc) (e : EditorFacade) : EditorFacade :=
  let cmd := AddCommand obj in
  mkEditor (execute cmd (objects e)) (cmd :: undoStack e) (pop_all (redoStack e)).

Definition msg_nothing_to_undo : string := "Немає дій для скасування.
".

Definition msg_nothing_to_redo : string := "Немає дій для повторення.
".

(** [undo] and [redo] return the new state and what they wrote to
    [cout]. *)
Definition undo (e : EditorFacade) : EditorFacade * list string :=
  match undoStack e with
  | cmd :: rest =>
      (mkEditor (cmd_undo cmd (objects e)) rest (cmd :: redoStack e), [])
  | [] => (e, [msg_nothing_to_undo])
  end.

Definition redo (e : EditorFacade) : EditorFacade * list string :=
  match redoStack e with
  | cmd :: rest =>
      (mkEditor (execute cmd (objects e)) (cmd :: undoStack e) rest, [])
  | [] => (e, [msg_nothing_to_redo])
  end.

(** [findElementAt]: [Some None] is the returned [nullptr]. *)
Definition findElementAt (fuel : nat) (h : heap) (e : EditorFacade) (x y : Z)
    : option (option loc) :=
  scan (fun c => containsPoint fuel h c x y)
       (fun c => if is_group h c
                 then Some <$> findDeepest fuel h c x y
                 else Some (Some c))
       (Some None) (rev (objects e)).

(** The editing requests of the menu, and the editor after a sequence of
    them. *)
Inductive Op : Type :=
| OpAdd (obj : loc)
| OpUndo
| OpRedo.

Definition step (e : EditorFacade) (o : Op) : EditorFacade :=
  match o with
  | OpAdd obj => addObject obj e
  | OpUndo => (undo e).1
  | OpRedo => (redo e).1
  end.

Definition run (ops : list Op) : EditorFacade := foldl step empty_editor ops.

(** What the invariant of the two stacks says about the document: the
    undo stack, read from its bottom, lists the document's objects. *)
Definition history_inv (e : EditorFacade) : Prop :=
  objects e = rev (cmd_obj <$> undoStack e).

(** The scene [main] builds before it shows the menu. *)
Module Scene.

Definition h0 : heap := ∅.
Definition c1_ := make_shared h0 (Circle 10 10 5).
Definition r1_ := make_shared c1_.1 (Rectangle 5 7 5 6).
Definition group1_ := make_shared r1_.1 (Group 2 2 []).
Definition g1a_ := make_shared group1_.1 (Rectangle 3 4 2 3).
Definition h4 := add g1a_.1 group1_.2 g1a_.2.
Definition g1b_ := make_shared h4 (Circle 1 5 2).
Definition h6 := add g1b_.1 group1_.2 g1b_.2.
Definition group2_ := make_shared h6 (Group 4 6 []).
Definition g2a_ := make_shared group2_.1 (Circle 0 1 3).
Definition h9 := add g2a_.1 group2_.2 g2a_.2.
Definition h : heap := add h9 group1_.2 group2_.2.

Definition c1 : loc := c1_.2.
Definition r1 : loc := r1_.2.
Definition group1 : loc := group1_.2.
Definition group2 : loc := group2_.2.

Definition editor : EditorFacade :=
  addObject r1 (addObject group1 (addObject c1 empty_editor)).

End Scene.

(** ** Drawing *)

(** [string(indent, '+')].  [indent] is 0 at the top level and grows by
    one per level of nesting, so the model keeps it a natural number. *)
Fixpoint indent_string (indent : nat) : string :=
  match indent with
  | O => ""
  | S k => String "+"%char (indent_string k)
  end.

Definition endl : string := String "010"%char "".

(** The loop [for (auto& child : children) child->draw(os, indent + 1)],
    with [dr] the call on one child; it yields what the children wrote. *)
Fixpoint draw_children (dr : loc -> option string) (children : list loc)
    : option string :=
  match children with
  | [] => Some ""
  | child :: rest =>
      match dr child with
      | None => None
      | Some t =>
          match draw_children dr rest with
          | None => None
          | Some ts => Some (t +:+ ts)
          end
      end
  end.

(** [draw], dispatched on the dynamic type of [*p]; the result is the
    text appended to [os].  [operator<<] on an [int] writes its decimal
    digits, with a leading minus sign when negative, as [pretty] does. *)
Fixpoint draw (fuel : nat) (h : heap) (p : loc) (indent : nat)
    : option string :=
  match fuel with
  | O => None
  | S n =>
      match h !! p with
      | None => None
      | Some (Circle x y radius) =>
          Some (indent_string indent +:+ "Circle (" +:+ pretty x +:+ ", "
                +:+ pretty y +:+ ") R=" +:+ pretty radius +:+ endl)
      | Some (Rectangle x y width height) =>
          Some (indent_string indent +:+ "Rectangle (" +:+ pretty x +:+ ", "
                +:+ pretty y +:+ ") " +:+ pretty width +:+ "*"
                +:+ pretty height +:+ endl)
      | Some (Group x y children) =>
          match draw_children (fun c => draw n h c (S indent)) children with
          | None => None
          | Some ts =>
              Some ((indent_string indent +:+ "Group (" +:+ pretty x +:+ ", "
                     +:+ pretty y +:+ ")" +:+ endl) +:+ ts)
          end
      end
  end.

Definition msg_empty : string := "[Порожньо]
".

(** [EditorFacade::print]: the text written to [cout]. *)
Definition print (fuel : nat) (h : heap) (e : EditorFacade) : option string :=
  match objects e with
  | [] => Some msg_empty
  | _ :: _ => draw_children (fun obj => draw fuel h obj 0) (objects e)
  end.

(** [draw] read on the value of a shape. *)
Fixpoint Shape_draw (s : Shape) (indent : nat) : string :=
  match s with
  | SCircle x y radius =>
      indent_string indent +:+ "Circle (" +:+ pretty x +:+ ", "
      +:+ pretty y +:+ ") R=" +:+ pretty radius +:+ endl
  | SRectangle x y width height =>
      indent_string indent +:+ "Rectangle (" +:+ pretty x +:+ ", "
      +:+ pretty y +:+ ") " +:+ pretty width +:+ "*"
      +:+ pretty height +:+ endl
  | SGroup x y children =>
      (indent_string indent +:+ "Group (" +:+ pretty x +:+ ", "
       +:+ pretty y +:+ ")" +:+ endl)
      +:+ foldr (fun c ts => Shape_draw c (S indent) +:+ ts) "" children
  end.

(** The number of objects in the tree of a value. *)
Fixpoint Shape_size (s : Shape) : nat :=
  match s with
  | SCircle _ _ _ | SRectangle _ _ _ _ => 1
  | SGroup _ _ children => S (foldr (fun c k => Shape_size c + k)%nat O children)
  end.

(** The number of line ends in a text. *)
Fixpoint count_endl (t : string) : nat :=
  match t with
  | EmptyString => O
  | String a t' => ((if Ascii.eqb a "010"%char then 1 else 0) + count_endl t')%nat
  end.

(** ** Sequences of editing requests *)

Definition adds (l : list loc) (e : EditorFacade) : EditorFacade :=
  foldl (fun e' obj => addObject obj e') e l.

Definition undos (k : nat) (e : EditorFacade) : EditorFacade :=
  Nat.iter k (fun e' => (undo e').1) e.

Definition redos (k : nat) (e : EditorFacade) : EditorFacade :=
  Nat.iter k (fun e' => (redo e').1) e.

(** The document followed by the objects waiting on the redo stack, next
    to be redone first. *)
Definition timeline (e : EditorFacade) : list loc :=
  objects e ++ (cmd_obj <$> redoStack e).

(** ** Reading shapes from the console

    [cin] is the list of the lines still to be read, [cout] output is
    the list of the texts written.  [parse_int line] stands for
    [stringstream ss(line); ss >> val] of the standard library: the
    value extracted, or [None] when the extraction fails. *)

Definition msg_bad_number : string := "Некоректне число. Спробуйте ще.
".

Section Console.

Variable parse_int : string -> option Z.

(** [readInt]: the value, the lines left, and the texts written.  At the
    end of the input [getline] fails and leaves the line empty, for good;
    when the empty line does not parse the loop never ends ([None]). *)
Fixpoint readInt (prompt : string) (cin : list string)
    : option (Z * list string * list string) :=
  match cin with
  | [] =>
      match parse_int "" with
      | Some val => Some (val, [], [prompt])
      | None => None
      end
  | line :: rest =>
      match parse_int line with
      | Some val => Some (val, rest, [prompt])
      | None =>
          match readInt prompt rest with
          | Some (val, rest', out) =>
              Some (val, rest', prompt :: msg_bad_number :: out)
          | None => None
          end
      end
  end.




End Console.

(** A parser for the examples: it reads a line made of one digit. *)
Definition parse_digit (line : string) : option Z :=
  match line with
  | String a "" => Z.of_nat <$> Ascii.is_nat a
  | _ => None
  end.

(** ** The history of the editor *)

Section History.

Implicit Types (e : EditorFacade) (c : Command) (s obj : loc).

Lemma pop_all_nil (st : list Command) : pop_all st = [].
Proof. induction st as [|c st IH]; [reflexivity | exact IH]. Qed.

Lemma pop_back_push (l : list loc) (x : loc) : pop_back (l ++ [x]) = l.
Proof. unfold pop_back. apply removelast_last. Qed.

Lemma cmd_undo_execute c (l : list loc) : cmd_undo c (execute c l) = l.
Proof.
  unfold cmd_undo, execute.
  destruct (l ++ [cmd_obj c]) eqn:E.
  - destruct l; discriminate E.
  - rewrite <- E. apply pop_back_push.
Qed.

Lemma history_inv_empty : history_inv empty_editor.
Proof. reflexivity. Qed.

Lemma history_inv_step e (o : Op) : history_inv e -> history_inv (step e o).
Proof.
  unfold history_inv. intros H. destruct o as [obj| |]; simpl.
  - unfold execute. simpl. by rewrite H.
  - unfold undo. destruct (undoStack e) as [|c rest] eqn:E; simpl; [by rewrite E|].
    rewrite H. simpl.
    change (rev (cmd_obj <$> rest) ++ [cmd_obj c]) with (execute c (rev (cmd_obj <$> rest))).
    apply cmd_undo_execute.
  - unfold redo. destruct (redoStack e) as [|c rest] eqn:E; simpl; [exact H|].
    unfold execute. by rewrite H.
Qed.

Lemma history_inv_foldl (ops : list Op) e :
  history_inv e -> history_inv (foldl step e ops).
Proof.
  revert e. induction ops as [|o ops IH]; intros e H; simpl; [exact H|].
  apply IH, history_inv_step, H.
Qed.

Lemma history_inv_run (ops : list Op) : history_inv (run ops).
Proof. apply history_inv_foldl, history_inv_empty. Qed.

(** C1. [addObject s] then [undo] leaves the sequence of top-level
    objects as it was before the add, and a following [redo] appends [s]
    again as the last element: the very pointer that was added, which in
    every store denotes the value the original denotes.  Neither call
    writes a message. *)
Theorem add_undo_redo_roundtrip e s :
  let e1 := addObject s e in
  let e2 := (undo e1).1 in
  let e3 := (redo e2).1 in
  objects e2 = objects e
  /\ objects e3 = objects e ++ [s]
  /\ last (objects e3) = Some s
  /\ (forall (n : nat) (h : heap),
        snapshot n h <$> last (objects e3) = Some (snapshot n h s))
  /\ (undo e1).2 = [] /\ (redo e2).2 = [].
Proof.
  simpl. unfold undo, redo. simpl.
  rewrite cmd_undo_execute. unfold execute. simpl.
  rewrite last_snoc. repeat split; reflexivity.
Qed.

(** C2. Every [addObject] empties the redo stack.  After [addObject a],
    [undo], [addObject b] the redo stack is empty, and a following
    [redo] writes the nothing-to-redo message and changes nothing: the
    document is the old one followed by [b], without [a]. *)
Theorem add_clears_redo e (a b : loc) :
  (forall s e', redoStack (addObject s e') = [])
  /\ let e3 := addObject b (undo (addObject a e)).1 in
     redoStack e3 = []
     /\ redo e3 = (e3, [msg_nothing_to_redo])
     /\ objects (redo e3).1 = objects e ++ [b].
Proof.
  split; [intros; apply pop_all_nil|].
  simpl. unfold redo, undo. simpl.
  rewrite cmd_undo_execute, !pop_all_nil. repeat split; reflexivity.
Qed.

(** C6. [undo] on an empty undo stack and [redo] on an empty redo stack
    write their message and return the editor unchanged: same document,
    same two stacks. *)
Theorem history_underflow (objs : list loc) (us rs : list Command) :
  undo (mkEditor objs [] rs) = (mkEditor objs [] rs, [msg_nothing_to_undo])
  /\ redo (mkEditor objs us []) = (mkEditor objs us [], [msg_nothing_to_redo]).
Proof. split; reflexivity. Qed.

(** C9. In every state reached from the empty editor by [addObject],
    [undo] and [redo], when [undo] pops a command the document is not
    empty and ends with the object that command appended; [undo] removes
    that element and nothing else, and the guard of [AddCommand::undo]
    takes its [pop_back] branch. *)
Theorem undo_removes_its_own (ops : list Op) c (rest : list Command) :
  undoStack (run ops) = c :: rest ->
  exists front : list loc,
    objects (run ops) = front ++ [cmd_obj c]
    /\ objects (run ops) <> []
    /\ last (objects (run ops)) = Some (cmd_obj c)
    /\ cmd_undo c (objects (run ops)) = pop_back (objects (run ops))
    /\ objects (undo (run ops)).1 = front.
Proof.
  intros Hs. pose proof (history_inv_run ops) as Hinv.
  unfold history_inv in Hinv. rewrite Hs, fmap_cons in Hinv.
  change (objects (run ops) = execute c (rev (cmd_obj <$> rest))) in Hinv.
  exists (rev (cmd_obj <$> rest)).
  assert (cmd_undo c (objects (run ops)) = rev (cmd_obj <$> rest)) as Hu
    by (rewrite Hinv; apply cmd_undo_execute).
  repeat split.
  - exact Hinv.
  - rewrite Hinv. unfold execute. intros E. symmetry in E.
    by apply app_cons_not_nil in E.
  - rewrite Hinv. apply last_snoc.
  - rewrite Hu, Hinv. symmetry. apply pop_back_push.
  - unfold undo. rewrite Hs. exact Hu.
Qed.

Lemma undo_removes_its_own_witness :
  exists front : list loc,
    let ops := [OpAdd 1; OpAdd 2; OpAdd 3; OpUndo; OpUndo; OpRedo]%positive in
    objects (run ops) = front ++ [2%positive]
    /\ objects (run ops) <> []
    /\ last (objects (run ops)) = Some 2%positive
    /\ cmd_undo (AddCommand 2) (objects (run ops)) = pop_back (objects (run ops))
    /\ objects (undo (run ops)).1 = front.
Proof.
  apply (undo_removes_its_own
           [OpAdd 1; OpAdd 2; OpAdd 3; OpUndo; OpUndo; OpRedo]%positive
           (AddCommand 2) [AddCommand 1]).
  reflexivity.
Defined.

End History.

(** ** Facts about [int] arithmetic *)

Section IntFacts.

Lemma wrap_in_range (z : Z) : Int.in_range z -> Int.wrap z = z.
Proof.
  unfold Int.in_range, Int.wrap, Int.min_int, Int.max_int, Int.modulus.
  intros H. rewrite Z.mod_small; lia.
Qed.

Lemma wrap_range (z : Z) : Int.in_range (Int.wrap z).
Proof.
  unfold Int.in_range, Int.wrap, Int.min_int, Int.max_int, Int.modulus.
  pose proof (Z.mod_pos_bound (z + 2147483648) 4294967296). lia.
Qed.

Lemma wrap_mod (z : Z) : Int.wrap z mod Int.modulus = z mod Int.modulus.
Proof.
  unfold Int.wrap, Int.modulus.
  rewrite Zminus_mod, Zmod_mod, <- Zminus_mod. f_equal. lia.
Qed.

Lemma wrap_congr (a b : Z) :
  a mod Int.modulus = b mod Int.modulus -> Int.wrap a = Int.wrap b.
Proof.
  intros H. unfold Int.wrap. f_equal.
  fold Int.modulus.
  rewrite (Zplus_mod a), (Zplus_mod b), H. reflexivity.
Qed.

(** Shifting both operands by the same amount does not change their
    difference, overflow or not. *)
Lemma sub_add_shift (a b d : Z) :
  Int.sub (Int.add a d) (Int.add b d) = Int.sub a b.
Proof.
  unfold Int.sub, Int.add. apply wrap_congr.
  rewrite Zminus_mod, !wrap_mod, <- Zminus_mod. f_equal. lia.
Qed.


Lemma add_exact (a b : Z) : Int.in_range (a + b) -> Int.add a b = a + b.
Proof. apply wrap_in_range. Qed.

Lemma sub_exact (a b : Z) : Int.in_range (a - b) -> Int.sub a b = a - b.
Proof. apply wrap_in_range. Qed.

Lemma mul_exact (a b : Z) : Int.in_range (a * b) -> Int.mul a b = a * b.
Proof. apply wrap_in_range. Qed.

End IntFacts.

(** ** The reverse scan *)

Section Scan.

Context {A : Type}.
Implicit Types (test : loc -> option bool) (found : loc -> option A)
  (none : option A) (l : list loc).

Lemma scan_no_match test found none l :
  (forall c, c ∈ l -> test c = Some false) ->
  scan test found none l = none.
Proof.
  induction l as [|c l IH]; intros H; simpl; [reflexivity|].
  rewrite (H c) by apply list_elem_of_here.
  apply IH. intros c' Hc'. apply H. by apply list_elem_of_further.
Qed.

Lemma scan_first_match test found none l1 c l2 :
  (forall c', c' ∈ l1 -> test c' = Some false) ->
  test c = Some true ->
  scan test found none (l1 ++ c :: l2) = found c.
Proof.
  induction l1 as [|c1 l1 IH]; intros H Hc; simpl.
  - by rewrite Hc.
  - rewrite (H c1) by apply list_elem_of_here.
    apply IH; [|exact Hc]. intros c' Hc'. apply H. by apply list_elem_of_further.
Qed.

(** Every answer of the scan comes from one of the two lemmas above. *)
Lemma scan_Some test found none l (a : A) :
  scan test found none l = Some a ->
  (exists l1 c l2, l = l1 ++ c :: l2
      /\ (forall c', c' ∈ l1 -> test c' = Some false)
      /\ test c = Some true /\ found c = Some a)
  \/ ((forall c, c ∈ l -> test c = Some false) /\ none = Some a).
Proof.
  induction l as [|c l IH]; simpl; intros H.
  - right. split; [|exact H]. intros c Hc. by apply elem_of_nil in Hc.
  - destruct (test c) as [[|]|] eqn:E; [| |discriminate H].
    + left. exists [], c, l. repeat split; [|exact E|exact H].
      intros c' Hc'. by apply elem_of_nil in Hc'.
    + destruct (IH H) as [(l1 & c0 & l2 & -> & Hl1 & Hc0 & Hf)|[Hall Hn]].
      * left. exists (c :: l1), c0, l2. repeat split; [|exact Hc0|exact Hf].
        intros c' [->|Hc']%elem_of_cons; [exact E|by apply Hl1].
      * right. split; [|exact Hn].
        intros c' [->|Hc']%elem_of_cons; [exact E|by apply Hall].
Qed.

End Scan.

Lemma rev_split_at (l1 l2 : list loc) (c : loc) :
  rev (l1 ++ c :: l2) = rev l2 ++ c :: rev l1.
Proof. rewrite rev_app_distr. simpl. by rewrite <- app_assoc. Qed.

(** ** Values of pointers and the hit test *)

Section HitTest.

Implicit Types (h : heap) (p g c q : loc) (s : Shape) (n : nat).

Lemma snapshot_group n h g x y (cs : list loc) s :
  h !! g = Some (Group x y cs) ->
  snapshot (S n) h g = Some s ->
  exists ss, s = SGroup x y ss
    /\ Forall2 (fun c sc => snapshot n h c = Some sc) cs ss.
Proof.
  simpl. intros -> H.
  destruct (mapM (snapshot n h) cs) as [ss|] eqn:E; [|discriminate H].
  exists ss. split; [by injection H|]. by apply mapM_Some.
Qed.

Lemma snapshot_group_intro n h g x y (cs : list loc) (ss : list Shape) :
  h !! g = Some (Group x y cs) ->
  Forall2 (fun c sc => snapshot n h c = Some sc) cs ss ->
  snapshot (S n) h g = Some (SGroup x y ss).
Proof.
  simpl. intros -> H. apply mapM_Some in H. by rewrite H.
Qed.

Lemma snapshot_S n h p s :
  snapshot n h p = Some s -> snapshot (S n) h p = Some s.
Proof.
  revert p s. induction n as [|n IH]; intros p s H; [discriminate H|].
  destruct (h !! p) as [[x y r|x y w hh|x y cs]|] eqn:E.
  - simpl in *. by rewrite E in *.
  - simpl in *. by rewrite E in *.
  - destruct (snapshot_group _ _ _ _ _ _ _ E H) as (ss & -> & HF).
    apply (snapshot_group_intro _ _ _ _ _ _ _ E).
    eapply Forall2_impl; [exact HF|]. intros c sc. apply IH.
  - simpl in H. by rewrite E in H.
Qed.

Lemma snapshot_mono n m h p s :
  (n <= m)%nat -> snapshot n h p = Some s -> snapshot m h p = Some s.
Proof.
  induction 1 as [|m _ IH]; intros H; [exact H|]. by apply snapshot_S, IH.
Qed.

Lemma scan_existsb (test : loc -> option bool) (f : Shape -> bool)
    (l : list loc) (ss : list Shape) :
  Forall2 (fun c sc => test c = Some (f sc)) l ss ->
  scan test (fun _ => Some true) (Some false) l = Some (existsb f ss).
Proof.
  induction 1 as [|c sc l ss Hc _ IH]; simpl; [reflexivity|].
  rewrite Hc. destruct (f sc); [reflexivity|exact IH].
Qed.

Lemma existsb_rev {B : Type} (f : B -> bool) (l : list B) :
  existsb f (rev l) = existsb f l.
Proof.
  induction l as [|b l IH]; simpl; [reflexivity|].
  rewrite existsb_app, IH. simpl. rewrite orb_false_r. apply orb_comm.
Qed.

Lemma Forall2_rev {B C : Type} (P : B -> C -> Prop) (l : list B) (k : list C) :
  Forall2 P l k -> Forall2 P (rev l) (rev k).
Proof.
  induction 1 as [|b c l k Hbc _ IH]; simpl; [constructor|].
  apply Forall2_app; [exact IH|]. by repeat constructor.
Qed.

(** On a well-formed object graph [containsPoint] returns, and its answer
    is a function of the value under the pointer. *)
Lemma containsPoint_snapshot n h p s (px py : Z) :
  snapshot n h p = Some s ->
  containsPoint n h p px py = Some (Shape_contains s px py).
Proof.
  revert p s px py. induction n as [|n IH]; intros p s px py H; [discriminate H|].
  destruct (h !! p) as [[x y r|x y w hh|x y cs]|] eqn:E.
  - simpl in *. rewrite E in *. by injection H as <-.
  - simpl in *. rewrite E in *. by injection H as <-.
  - destruct (snapshot_group _ _ _ _ _ _ _ E H) as (ss & -> & HF).
    simpl. rewrite E.
    rewrite <- existsb_rev. apply scan_existsb.
    apply Forall2_rev.
    eapply Forall2_impl; [exact HF|]. intros c sc. apply IH.
  - simpl in H. by rewrite E in H.
Qed.

(** More fuel than a well-formed graph needs does not change the answer. *)
Lemma containsPoint_fuel n m h p s (px py : Z) :
  snapshot n h p = Some s -> (n <= m)%nat ->
  containsPoint m h p px py = containsPoint n h p px py.
Proof.
  intros H Hnm.
  rewrite (containsPoint_snapshot _ _ _ _ _ _ H).
  apply containsPoint_snapshot. by apply (snapshot_mono n m).
Qed.

Lemma Forall2_elem_l {B C : Type} (P : B -> C -> Prop) (l : list B)
    (k : list C) (b : B) :
  Forall2 P l k -> b ∈ l -> exists x, x ∈ k /\ P b x.
Proof.
  induction 1 as [|b' c' l k Hbc _ IH]; intros Hb.
  - by apply elem_of_nil in Hb.
  - apply elem_of_cons in Hb as [->|Hb].
    + exists c'. split; [apply list_elem_of_here|exact Hbc].
    + destruct (IH Hb) as (x & Hx & HP). exists x.
      split; [by apply list_elem_of_further|exact HP].
Qed.

Lemma elem_of_rev {B : Type} (l : list B) (b : B) : b ∈ rev l <-> b ∈ l.
Proof. rewrite !list_elem_of_In. symmetry. apply in_rev. Qed.

Lemma is_group_spec h p :
  is_group h p = true <-> exists x y cs, h !! p = Some (Group x y cs).
Proof.
  unfold is_group. split.
  - destruct (h !! p) as [[| |x y cs]|]; try discriminate. by exists x, y, cs.
  - by intros (x & y & cs & ->).
Qed.

Lemma children_contain_total n h g x y (cs : list loc) s :
  h !! g = Some (Group x y cs) ->
  snapshot (S n) h g = Some s ->
  forall c (qx qy : Z), c ∈ cs -> exists b, containsPoint n h c qx qy = Some b.
Proof.
  intros E H c qx qy Hc.
  destruct (snapshot_group _ _ _ _ _ _ _ E H) as (ss & _ & HF).
  destruct (Forall2_elem_l _ _ _ _ HF Hc) as (sc & _ & Hsc).
  eexists. by apply containsPoint_snapshot.
Qed.

(** [findDeepest] returns on a well-formed group. *)
Lemma findDeepest_total n h g s (px py : Z) :
  snapshot n h g = Some s -> is_group h g = true ->
  exists q, findDeepest n h g px py = Some q.
Proof.
  revert g s px py. induction n as [|n IH]; intros g s px py H Hg; [discriminate H|].
  apply is_group_spec in Hg as (x & y & cs & E).
  destruct (snapshot_group _ _ _ _ _ _ _ E H) as (ss & _ & HF).
  simpl. rewrite E.
  assert (forall c, c ∈ rev cs -> exists sc, snapshot n h c = Some sc) as Hall.
  { intros c Hc. apply (proj1 (elem_of_rev _ _)) in Hc.
    destruct (Forall2_elem_l _ _ _ _ HF Hc) as (sc & _ & Hsc). by exists sc. }
  clear HF. induction (rev cs) as [|c l IHl]; simpl; [by exists g|].
  destruct (Hall c) as (sc & Hsc); [apply list_elem_of_here|].
  rewrite (containsPoint_snapshot _ _ _ _ _ _ Hsc).
  destruct (Shape_contains sc _ _).
  - destruct (is_group h c) eqn:Hgc; [by eapply IH|by exists c].
  - apply IHl. intros c' Hc'. apply Hall. by apply list_elem_of_further.
Qed.

(** C4. [findDeepest] on a group [g] at [(x, y)] works with the point
    translated by subtracting that origin.  It returns on a well-formed
    group.  When no child contains the translated point it returns [g]
    itself.  Otherwise the last child in insertion order that contains
    it decides: a leaf is returned as it is, and for a group the result
    is that of [findDeepest] on that child with the translated point. *)
Theorem findDeepest_characterisation n h g x y (cs : list loc) s (px py : Z) :
  h !! g = Some (Group x y cs) ->
  snapshot (S n) h g = Some s ->
  let qx := Int.sub px x in
  let qy := Int.sub py y in
  (exists q, findDeepest (S n) h g px py = Some q)
  /\ ((forall c, c ∈ cs -> containsPoint n h c qx qy = Some false) ->
      findDeepest (S n) h g px py = Some g)
  /\ (forall before c after,
        cs = before ++ c :: after ->
        containsPoint n h c qx qy = Some true ->
        (forall c', c' ∈ after -> containsPoint n h c' qx qy = Some false) ->
        findDeepest (S n) h g px py
        = if is_group h c then findDeepest n h c qx qy else Some c)
  /\ ((forall c, c ∈ cs -> containsPoint n h c qx qy = Some false)
      \/ exists before c after,
           cs = before ++ c :: after
           /\ containsPoint n h c qx qy = Some true
           /\ forall c', c' ∈ after -> containsPoint n h c' qx qy = Some false).
Proof.
  intros E H qx qy. split; [|split; [|split]].
  - eapply findDeepest_total; [exact H|]. apply is_group_spec. eauto.
  - intros Hnone. simpl. rewrite E. apply scan_no_match.
    intros c Hc. apply (proj1 (elem_of_rev _ _)) in Hc. by apply Hnone.
  - intros before c after -> Hc Hafter. simpl. rewrite E, rev_split_at.
    apply (scan_first_match
             (fun c => containsPoint n h c qx qy)); [|exact Hc].
    intros c' Hc'. apply (proj1 (elem_of_rev _ _)) in Hc'. by apply Hafter.
  - pose proof (children_contain_total _ _ _ _ _ _ _ E H) as Htot.
    clear E H. induction cs as [|c cs IH] using rev_ind.
    + left. intros c Hc. by apply elem_of_nil in Hc.
    + destruct (Htot c qx qy) as [[|] Hb]; [apply elem_of_app; right; apply list_elem_of_here| |].
      * right. exists cs, c, []. repeat split; [exact Hb|].
        intros c' Hc'. by apply elem_of_nil in Hc'.
      * destruct IH as [Hall|(before & c0 & after & -> & Hc0 & Haft)].
        { intros c' qx' qy' Hc'. apply Htot, elem_of_app. by left. }
        { left. intros c' [Hc'|Hc']%elem_of_app; [by apply Hall|].
          apply list_elem_of_singleton in Hc' as ->. exact Hb. }
        { right. exists before, c0, (after ++ [c]).
          split; [by rewrite <- app_assoc|]. split; [exact Hc0|].
          intros c' [Hc'|Hc']%elem_of_app; [by apply Haft|].
          apply list_elem_of_singleton in Hc' as ->. exact Hb. }
Qed.

Lemma findDeepest_characterisation_witness :
  findDeepest 3 Scene.h Scene.group1 5 6
  = if is_group Scene.h 4%positive
    then findDeepest 2 Scene.h 4%positive (Int.sub 5 2) (Int.sub 6 2)
    else Some 4%positive.
Proof.
  assert (Scene.h !! Scene.group1 = Some (Group 2 2 [4; 5; 6]%positive)) as E
    by (vm_compute; reflexivity).
  assert (snapshot 3 Scene.h Scene.group1
          = Some (SGroup 2 2 [SRectangle 3 4 2 3; SCircle 1 5 2;
                              SGroup 4 6 [SCircle 0 1 3]])) as Hs
    by (vm_compute; reflexivity).
  apply (proj1 (proj2 (proj2
           (findDeepest_characterisation 2 _ _ _ _ _ _ 5 6 E Hs)))
           [] 4%positive [5; 6]%positive eq_refl).
  - vm_compute. reflexivity.
  - intros c' Hc'.
    apply elem_of_cons in Hc' as [->|Hc']; [vm_compute; reflexivity|].
    apply elem_of_cons in Hc' as [->|Hc']; [vm_compute; reflexivity|].
    by apply elem_of_nil in Hc'.
Defined.

End HitTest.

(** ** What a hit test can return *)

Section Hits.

Implicit Types (h : heap) (p g c q : loc) (s : Shape) (n : nat).

Lemma containsPoint_group_true n h g x y (cs : list loc) (px py : Z) :
  h !! g = Some (Group x y cs) ->
  containsPoint (S n) h g px py = Some true ->
  exists c, c ∈ cs
    /\ containsPoint n h c (Int.sub px x) (Int.sub py y) = Some true.
Proof.
  simpl. intros -> H.
  apply scan_Some in H as [(l1 & c & l2 & Hl & _ & Hc & _)|[_ H]]; [|discriminate H].
  exists c. split; [|exact Hc].
  apply elem_of_rev. rewrite Hl. apply elem_of_app. right. apply list_elem_of_here.
Qed.

(** A group that contains the point hands the search to a child, so the
    search below it ends on a leaf. *)
Lemma findDeepest_hit_leaf n h g q (px py : Z) :
  containsPoint n h g px py = Some true ->
  findDeepest n h g px py = Some q ->
  is_group h q = false.
Proof.
  revert g q px py. induction n as [|n IH]; intros g q px py Hc Hf; [discriminate Hc|].
  simpl in Hc, Hf.
  destruct (h !! g) as [[| |x y cs]|] eqn:E; try discriminate Hf.
  apply scan_Some in Hc as [(l1 & c & l2 & Hl & Hl1 & Hc & _)|[_ Hc]]; [|discriminate Hc].
  rewrite Hl in Hf.
  rewrite (scan_first_match _ _ _ _ _ _ Hl1 Hc) in Hf.
  destruct (is_group h c) eqn:Hg.
  - by apply (IH c q _ _ Hc).
  - by injection Hf as <-.
Qed.

Lemma findDeepest_self_or_leaf n h g q (px py : Z) :
  findDeepest n h g px py = Some q -> q = g \/ is_group h q = false.
Proof.
  destruct n as [|n]; [discriminate|]. simpl.
  destruct (h !! g) as [[| |x y cs]|] eqn:E; try discriminate.
  intros [(l1 & c & l2 & _ & _ & Hc & Hf)|[_ Hn]]%scan_Some.
  - right. destruct (is_group h c) eqn:Hg.
    + by apply (findDeepest_hit_leaf _ _ _ _ _ _ Hc Hf).
    + by injection Hf as <-.
  - left. by injection Hn.
Qed.

Lemma findElementAt_leaf n h (e : EditorFacade) q (px py : Z) :
  findElementAt n h e px py = Some (Some q) -> is_group h q = false.
Proof.
  unfold findElementAt.
  intros [(l1 & c & l2 & _ & _ & Hc & Hf)|[_ Hn]]%scan_Some; [|discriminate Hn].
  destruct (is_group h c) eqn:Hg.
  - destruct (findDeepest n h c px py) as [q'|] eqn:Hq; [|discriminate Hf].
    injection Hf as <-. by apply (findDeepest_hit_leaf _ _ _ _ _ _ Hc Hq).
  - by injection Hf as <-.
Qed.

(** C10. A group has no extent of its own.  With no children its
    [containsPoint] is false at every point; in general it is true only
    when some child contains the translated point.  So [findElementAt]
    never returns a group without children (it only ever returns
    leaves), and [findDeepest] returns a group only as its own receiver,
    when no child was hit. *)
Theorem group_has_no_extent n h g x y (cs : list loc) (px py : Z) :
  h !! g = Some (Group x y cs) ->
  (cs = [] -> containsPoint (S n) h g px py = Some false)
  /\ (containsPoint (S n) h g px py = Some true ->
      exists c, c ∈ cs
        /\ containsPoint n h c (Int.sub px x) (Int.sub py y) = Some true)
  /\ (forall (m : nat) (e : EditorFacade) (qx qy : Z),
        cs = [] -> findElementAt m h e qx qy <> Some (Some g))
  /\ (forall (m : nat) (g' : loc) (qx qy : Z),
        cs = [] -> findDeepest m h g' qx qy = Some g -> g' = g).
Proof.
  intros E. split; [|split; [|split]].
  - intros ->. simpl. by rewrite E.
  - by apply containsPoint_group_true.
  - intros m e qx qy _ H. apply findElementAt_leaf in H.
    unfold is_group in H. by rewrite E in H.
  - intros m g' qx qy _ H.
    apply findDeepest_self_or_leaf in H as [H|H]; [by symmetry|].
    unfold is_group in H. by rewrite E in H.
Qed.

Lemma group_has_no_extent_witness :
  containsPoint 1 {[1%positive := Group 3 4 []]} 1%positive 7 9 = Some false.
Proof.
  refine (proj1 (group_has_no_extent 0 {[1%positive := Group 3 4 []]}
                   1%positive 3 4 [] 7 9 _) _);
    [vm_compute; reflexivity | reflexivity].
Defined.

(** The first matching element from the back of the document decides
    [findElementAt]. *)
Lemma findElementAt_last_match n h (e : EditorFacade)
    (front back : list loc) (B : loc) (px py : Z) :
  objects e = front ++ B :: back ->
  containsPoint n h B px py = Some true ->
  (forall c, c ∈ back -> containsPoint n h c px py = Some false) ->
  findElementAt n h e px py
  = if is_group h B then Some <$> findDeepest n h B px py else Some (Some B).
Proof.
  intros Ho HB Hback. unfold findElementAt. rewrite Ho, rev_split_at.
  apply (scan_first_match (fun c => containsPoint n h c px py)); [|exact HB].
  intros c Hc. apply (proj1 (elem_of_rev _ _)) in Hc. by apply Hback.
Qed.




End Hits.

(** ** Frames: what a value depends on *)

Section Frames.

Implicit Types (h : heap) (p g c q a : loc) (s : Shape) (n : nat).

Lemma reach_child n h p x y (cs : list loc) c q :
  h !! p = Some (Group x y cs) -> c ∈ cs -> q ∈ reach n h c ->
  q ∈ reach (S n) h p.
Proof.
  intros E Hc Hq. simpl. rewrite E. apply elem_of_union. right.
  apply elem_of_union_list. exists (reach n h c).
  split; [|exact Hq]. apply list_elem_of_fmap. by exists c.
Qed.

Lemma reach_self n h p : p ∈ reach (S n) h p.
Proof. simpl. apply elem_of_union. left. by apply elem_of_singleton. Qed.

Lemma reach_inv n h p q :
  q ∈ reach (S n) h p ->
  q = p \/ exists x y cs c,
             h !! p = Some (Group x y cs) /\ c ∈ cs /\ q ∈ reach n h c.
Proof.
  simpl. intros [Hq|Hq]%elem_of_union.
  - left. by apply elem_of_singleton in Hq.
  - right. destruct (h !! p) as [[| |x y cs]|];
      try by apply elem_of_empty in Hq.
    apply elem_of_union_list in Hq as (X & HX & Hq).
    apply list_elem_of_fmap in HX as (c & -> & Hc).
    by exists x, y, cs, c.
Qed.

(** The value under [p] and the set of objects it reaches depend only on
    the objects reached. *)
Lemma snapshot_frame n h1 h2 p s :
  snapshot n h1 p = Some s ->
  (forall q o, q ∈ reach n h1 p -> h1 !! q = Some o -> h2 !! q = Some o) ->
  snapshot n h2 p = Some s /\ reach n h2 p = reach n h1 p.
Proof.
  revert p s. induction n as [|n IH]; intros p s H Hag; [discriminate H|].
  destruct (h1 !! p) as [o|] eqn:E; [|simpl in H; by rewrite E in H].
  pose proof (Hag p o (reach_self n h1 p) E) as E2.
  destruct o as [x y r|x y w hh|x y cs].
  - simpl in *. rewrite E in *. by rewrite E2.
  - simpl in *. rewrite E in *. by rewrite E2.
  - destruct (snapshot_group _ _ _ _ _ _ _ E H) as (ss & -> & HF).
    assert (Forall2 (fun c sc => snapshot n h2 c = Some sc
                                 /\ reach n h2 c = reach n h1 c) cs ss) as HF2.
    { assert (forall l ss',
                Forall2 (fun c sc => snapshot n h1 c = Some sc) l ss' ->
                (forall c, c ∈ l -> c ∈ cs) ->
                Forall2 (fun c sc => snapshot n h2 c = Some sc
                                     /\ reach n h2 c = reach n h1 c) l ss')
        as Hgen.
      { induction 1 as [|c sc l' ss' Hc _ IHF]; intros Hin; [constructor|].
        constructor.
        - apply IH; [exact Hc|]. intros q o Hq. apply Hag.
          eapply reach_child; [exact E| |exact Hq].
          apply Hin, list_elem_of_here.
        - apply IHF. intros c' Hc'. by apply Hin, list_elem_of_further. }
      apply Hgen; [exact HF|auto]. }
    split.
    + apply (snapshot_group_intro _ _ _ _ _ _ _ E2).
      eapply Forall2_impl; [exact HF2|]. by intros c sc [? _].
    + simpl. rewrite E, E2. f_equal. f_equal.
      clear -HF2. induction HF2 as [|c sc l ss [_ Hr] _ IHl]; [reflexivity|].
      rewrite !fmap_cons. by rewrite Hr, IHl.
Qed.

Lemma snapshot_weaken n h1 h2 p s :
  h1 ⊆ h2 -> snapshot n h1 p = Some s ->
  snapshot n h2 p = Some s /\ reach n h2 p = reach n h1 p.
Proof.
  intros Hsub H. apply snapshot_frame; [exact H|].
  intros q o _ Hq. by eapply lookup_weaken.
Qed.

Lemma reach_dom n h p s :
  snapshot n h p = Some s -> reach n h p ⊆ dom h.
Proof.
  revert p s. induction n as [|n IH]; intros p s H; [discriminate H|].
  intros q [->|(x & y & cs & c & E & Hc & Hq)]%reach_inv.
  - apply elem_of_dom. simpl in H. destruct (h !! p); [eauto|discriminate H].
  - destruct (snapshot_group _ _ _ _ _ _ _ E H) as (ss & _ & HF).
    destruct (Forall2_elem_l _ _ _ _ HF Hc) as (sc & _ & Hsc).
    by apply (IH c sc).
Qed.

(** A descendant needs no more levels than its ancestor. *)
Lemma snapshot_descend k m h p q :
  q ∈ reach k h p -> is_Some (snapshot m h p) -> is_Some (snapshot m h q).
Proof.
  revert p m. induction k as [|k IH]; intros p m Hq Hs.
  - by apply elem_of_empty in Hq.
  - apply reach_inv in Hq as [->|(x & y & cs & c & E & Hc & Hq)]; [exact Hs|].
    destruct Hs as [s Hs]. destruct m as [|m]; [discriminate Hs|].
    destruct (snapshot_group _ _ _ _ _ _ _ E Hs) as (ss & _ & HF).
    destruct (Forall2_elem_l _ _ _ _ HF Hc) as (sc & _ & Hsc).
    destruct (IH c m Hq) as [sq Hsq]; [by exists sc|].
    exists sq. by apply snapshot_S.
Qed.

(** A well-formed group is not among its own descendants. *)
Lemma group_not_below_child n m h g x y (cs : list loc) c :
  h !! g = Some (Group x y cs) -> c ∈ cs ->
  is_Some (snapshot m h g) -> g ∉ reach n h c.
Proof.
  intros E Hc Hs Hg.
  assert (forall k, snapshot k h g = None) as Hnone.
  { induction k as [|k IHk]; [reflexivity|].
    destruct (snapshot (S k) h g) as [s|] eqn:Hk; [|reflexivity].
    destruct (snapshot_group _ _ _ _ _ _ _ E Hk) as (ss & _ & HF).
    destruct (Forall2_elem_l _ _ _ _ HF Hc) as (sc & _ & Hsc).
    destruct (snapshot_descend n k h c g Hg) as [s' Hs']; [by exists sc|].
    by rewrite IHk in Hs'. }
  destruct Hs as [s Hs]. by rewrite Hnone in Hs.
Qed.

End Frames.

(** ** [move] *)

Section Move.

Implicit Types (h : heap) (p g c q a : loc) (s : Shape) (n : nat).

Lemma move_lookup_ne h a q (dx dy : Z) :
  q <> a -> move h a dx dy !! q = h !! q.
Proof.
  intros Hne. unfold move. destruct (h !! a); [|reflexivity].
  by apply lookup_insert_ne.
Qed.

Lemma move_lookup_eq h a (dx dy : Z) :
  move h a dx dy !! a = move_obj dx dy <$> h !! a.
Proof.
  unfold move. destruct (h !! a) as [o|] eqn:E; simpl.
  - by rewrite lookup_insert_eq.
  - by rewrite E.
Qed.

Lemma moves_lookup_other h (ms : list (loc * (Z * Z))) q :
  (forall m, m ∈ ms -> m.1 <> q) -> moves h ms !! q = h !! q.
Proof.
  unfold moves. revert h. induction ms as [|m ms IH]; intros h Hq; [reflexivity|].
  simpl. rewrite IH.
  - apply move_lookup_ne. intros Heq.
    by apply (Hq m (list_elem_of_here _ _)).
  - intros m' Hm'. by apply Hq, list_elem_of_further.
Qed.

(** Moving objects outside the graph under [p] does not change the value
    under [p]. *)
Lemma snapshot_moves_outside n h (ms : list (loc * (Z * Z))) p s :
  snapshot n h p = Some s ->
  (forall m, m ∈ ms -> m.1 ∉ reach n h p) ->
  snapshot n (moves h ms) p = Some s.
Proof.
  intros H Hout. apply (snapshot_frame n h); [exact H|].
  intros q o Hq Ho. rewrite moves_lookup_other; [exact Ho|].
  intros m Hm Heq. apply (Hout m Hm). by rewrite Heq.
Qed.

(** [move] on the root of a well-formed graph shifts the origin of the
    root and leaves everything below it as it was. *)
Lemma snapshot_move_root n h p s (dx dy : Z) :
  snapshot n h p = Some s ->
  snapshot n (move h p dx dy) p = Some (Shape_move dx dy s).
Proof.
  intros H. destruct n as [|n]; [discriminate H|].
  destruct (h !! p) as [o|] eqn:E; [|simpl in H; by rewrite E in H].
  pose proof (move_lookup_eq h p dx dy) as Em. rewrite E in Em. simpl in Em.
  destruct o as [x y r|x y w hh|x y cs].
  - simpl in *. rewrite E in H. rewrite Em. by injection H as <-.
  - simpl in *. rewrite E in H. rewrite Em. by injection H as <-.
  - destruct (snapshot_group _ _ _ _ _ _ _ E H) as (ss & -> & HF).
    apply (snapshot_group_intro _ _ _ _ _ _ _ Em).
    assert (forall l ss',
              Forall2 (fun c sc => snapshot n h c = Some sc) l ss' ->
              (forall c, c ∈ l -> c ∈ cs) ->
              Forall2 (fun c sc => snapshot n (move h p dx dy) c = Some sc) l ss')
      as Hgen.
    { induction 1 as [|c sc l' ss' Hc _ IHF]; intros Hin; [constructor|].
      constructor.
      - apply (snapshot_frame n h); [exact Hc|].
        intros q o Hq Ho. rewrite move_lookup_ne; [exact Ho|].
        intros ->. revert Hq.
        apply (group_not_below_child n (S n) h p x y cs c E);
          [apply Hin, list_elem_of_here|by eexists].
      - apply IHF. intros c' Hc'. by apply Hin, list_elem_of_further. }
    apply Hgen; [exact HF|auto].
Qed.

Lemma Shape_contains_move (ss : list Shape) (x y dx dy px py : Z) :
  Shape_contains (SGroup (Int.add x dx) (Int.add y dy) ss)
    (Int.add px dx) (Int.add py dy)
  = Shape_contains (SGroup x y ss) px py.
Proof. simpl. by rewrite !sub_add_shift. Qed.

(** C8. [move] on a group changes its own origin from [(x, y)] to
    [(x + dx, y + dy)] in [int] arithmetic (the exact sums when they fit
    an [int]) and nothing else: the children list is the same, every
    other object of the store is untouched, and the values under the
    children are the same at every depth.  The subtree shifts rigidly:
    the moved group contains the shifted point exactly when the group
    contained the point before. *)
Theorem group_move_rigid n h g x y (cs : list loc) (ss : list Shape)
    (dx dy : Z) :
  h !! g = Some (Group x y cs) ->
  snapshot n h g = Some (SGroup x y ss) ->
  let h' := move h g dx dy in
  h' !! g = Some (Group (Int.add x dx) (Int.add y dy) cs)
  /\ (Int.in_range (x + dx) -> Int.in_range (y + dy) ->
      h' !! g = Some (Group (x + dx) (y + dy) cs))
  /\ (forall q, q <> g -> h' !! q = h !! q)
  /\ snapshot n h' g = Some (SGroup (Int.add x dx) (Int.add y dy) ss)
  /\ (forall c, c ∈ cs ->
        exists sc, snapshot (pred n) h c = Some sc
                   /\ snapshot (pred n) h' c = Some sc)
  /\ (forall px py : Z,
        containsPoint n h' g (Int.add px dx) (Int.add py dy)
        = containsPoint n h g px py).
Proof.
  intros E H h'.
  assert (h' !! g = Some (Group (Int.add x dx) (Int.add y dy) cs)) as E'.
  { unfold h'. rewrite move_lookup_eq, E. reflexivity. }
  pose proof (snapshot_move_root n h g _ dx dy H) as H'. simpl in H'.
  fold h' in H'.
  split; [exact E'|]. split; [|split; [|split; [|split]]].
  - intros Hx Hy. by rewrite E', !add_exact.
  - intros q Hq. by apply move_lookup_ne.
  - exact H'.
  - intros c Hc. destruct n as [|n]; [discriminate H|]. simpl.
    destruct (snapshot_group _ _ _ _ _ _ _ E H) as (ss1 & _ & HF).
    destruct (snapshot_group _ _ _ _ _ _ _ E' H') as (ss2 & _ & HF').
    destruct (Forall2_elem_l _ _ _ _ HF Hc) as (sc & _ & Hsc).
    exists sc. split; [exact Hsc|].
    apply (snapshot_frame n h); [exact Hsc|].
    intros q o Hq Ho. unfold h'. rewrite move_lookup_ne; [exact Ho|].
    intros ->. revert Hq.
    apply (group_not_below_child n (S n) h g x y cs c E Hc). by eexists.
  - intros px py.
    rewrite (containsPoint_snapshot _ _ _ _ _ _ H'),
      (containsPoint_snapshot _ _ _ _ _ _ H).
    f_equal. apply Shape_contains_move.
Qed.

Lemma group_move_rigid_witness :
  move Scene.h Scene.group1 10 (-3) !! Scene.group1
  = Some (Group (2 + 10) (2 + -3) [4; 5; 6]%positive).
Proof.
  assert (forall z, -2147483648 <= z <= 2147483647 -> Int.in_range z) as R
    by (intros z Hz; exact Hz).
  refine (proj1 (proj2 (group_move_rigid 3 Scene.h Scene.group1 2 2
            [4; 5; 6]%positive
            [SRectangle 3 4 2 3; SCircle 1 5 2; SGroup 4 6 [SCircle 0 1 3]]
            10 (-3) _ _)) _ _);
    try (vm_compute; reflexivity); apply R; lia.
Defined.

End Move.

(** ** [clone] *)

Section Clone.

Implicit Types (h : heap) (p g c q a : loc) (s : Shape) (n : nat).

Lemma make_shared_extends h (o : GraphicObject) :
  h ⊆ (make_shared h o).1.
Proof.
  unfold make_shared. simpl. apply insert_subseteq.
  apply not_elem_of_dom, is_fresh.
Qed.

Lemma fresh_only (X : gset loc) p : p ∉ X -> {[p]} ∪ ∅ ## X.
Proof.
  intros Hp. apply elem_of_disjoint. intros q Hq HX.
  apply elem_of_union in Hq as [Hq|Hq]; [|by apply elem_of_empty in Hq].
  apply elem_of_singleton in Hq as ->. by apply Hp.
Qed.

Lemma add_group h g x y (done : list loc) c :
  h !! g = Some (Group x y done) ->
  add h g c = <[g := Group x y (done ++ [c])]> h.
Proof. unfold add. by intros ->. Qed.

(** The loop of [Group::clone].  [h] is the store before the call, [g]
    the new group, [hi] the store so far, in which [g] holds the clones
    [done] of the children already visited. *)
Lemma clone_children_spec n h g x y :
  (forall hi c sc, snapshot n hi c = Some sc ->
     exists h' c', clone n hi c = Some (h', c') /\ hi ⊆ h'
       /\ snapshot n h' c' = Some sc /\ reach n h' c' ## dom hi) ->
  g ∉ dom h ->
  forall (cs : list loc) (ss : list Shape),
    Forall2 (fun c sc => snapshot n h c = Some sc) cs ss ->
    forall hi (done : list loc) (dss : list Shape),
      h ⊆ hi ->
      hi !! g = Some (Group x y done) ->
      Forall2 (fun c' sc => snapshot n hi c' = Some sc
                            /\ reach n hi c' ## {[g]} ∪ dom h) done dss ->
      exists hf (done' : list loc),
        clone_children (clone n) g cs hi = Some (hf, g)
        /\ h ⊆ hf
        /\ hf !! g = Some (Group x y done')
        /\ Forall2 (fun c' sc => snapshot n hf c' = Some sc
                                 /\ reach n hf c' ## {[g]} ∪ dom h)
             done' (dss ++ ss).
Proof.
  intros IH Hg cs ss HF.
  induction HF as [|c sc cs ss Hc _ IHl]; intros hi done dss Hsub Eg Hdone.
  - exists hi, done. rewrite app_nil_r. by repeat split.
  - simpl.
    destruct (snapshot_weaken n h hi c sc Hsub Hc) as [Hci _].
    destruct (IH hi c sc Hci) as (h' & c' & -> & Hsub' & Hc' & Hfresh).
    pose proof (lookup_weaken _ _ _ _ Eg Hsub') as Eg'.
    rewrite (add_group _ _ _ _ _ _ Eg').
    assert (g ∈ dom hi) as Hgi by (apply elem_of_dom; eauto).
    assert (forall q, q <> g ->
              <[g := Group x y (done ++ [c'])]> h' !! q = h' !! q) as Hne
      by (intros q Hq; by apply lookup_insert_ne).
    destruct (IHl (<[g := Group x y (done ++ [c'])]> h')
                (done ++ [c']) (dss ++ [sc])) as (hf & done' & Hcl & Hsf & Egf & HFf).
    + apply map_subseteq_spec. intros q o Hq. rewrite Hne.
      * eapply lookup_weaken; [|exact Hsub']. by eapply lookup_weaken.
      * intros ->. apply Hg, elem_of_dom. eauto.
    + apply lookup_insert_eq.
    + apply Forall2_app.
      * eapply Forall2_impl; [exact Hdone|]. intros d sd [Hd Hdr].
        destruct (snapshot_frame n hi (<[g := Group x y (done ++ [c'])]> h')
                    d sd Hd) as [Hd' Hr'].
        { intros q o Hq Ho. rewrite Hne; [by eapply lookup_weaken|].
          intros ->. apply (proj1 (elem_of_disjoint _ _) Hdr g Hq).
          apply elem_of_union. left. by apply elem_of_singleton. }
        split; [exact Hd'|]. by rewrite Hr'.
      * constructor; [|constructor].
        destruct (snapshot_frame n h' (<[g := Group x y (done ++ [c'])]> h')
                    c' sc Hc') as [Hd' Hr'].
        { intros q o Hq Ho. rewrite Hne; [exact Ho|].
          intros ->. exact (proj1 (elem_of_disjoint _ _) Hfresh g Hq Hgi). }
        split; [exact Hd'|]. rewrite Hr'.
        apply elem_of_disjoint. intros q Hq Hq'.
        apply (proj1 (elem_of_disjoint _ _) Hfresh q Hq).
        apply elem_of_union in Hq' as [Hq'|Hq'].
        -- apply elem_of_singleton in Hq' as ->. exact Hgi.
        -- by apply (subseteq_dom _ _ Hsub).
    + exists hf, done'. rewrite <- app_assoc in HFf. by repeat split.
Qed.

(** [clone] returns on a well-formed graph.  It leaves the old store as
    it was, and the new pointer has the value of the old one, held in
    objects that did not exist before the call. *)
Lemma clone_spec n h p s :
  snapshot n h p = Some s ->
  exists h' p', clone n h p = Some (h', p') /\ h ⊆ h'
    /\ snapshot n h' p' = Some s /\ reach n h' p' ## dom h.
Proof.
  revert h p s. induction n as [|n IH]; intros h p s H; [discriminate H|].
  destruct (h !! p) as [o|] eqn:E; [|simpl in H; by rewrite E in H].
  pose proof (is_fresh (dom h)) as Hfr.
  destruct o as [x y r|x y w hh|x y cs].
  - simpl in *. rewrite E in *. injection H as <-.
    eexists _, _. split; [reflexivity|].
    split; [apply (make_shared_extends h (Circle x y r))|].
    rewrite lookup_insert_eq. split; [reflexivity|]. by apply fresh_only.
  - simpl in *. rewrite E in *. injection H as <-.
    eexists _, _. split; [reflexivity|].
    split; [apply (make_shared_extends h (Rectangle x y w hh))|].
    rewrite lookup_insert_eq. split; [reflexivity|]. by apply fresh_only.
  - destruct (snapshot_group _ _ _ _ _ _ _ E H) as (ss & -> & HF).
    simpl clone. rewrite E. unfold make_shared.
    set (g := fresh (dom h)) in *.
    destruct (clone_children_spec n h g x y IH Hfr cs ss HF
                (<[g := Group x y []]> h) [] [])
      as (hf & done' & Hcl & Hsf & Egf & HFf).
    + apply insert_subseteq. by apply not_elem_of_dom.
    + apply lookup_insert_eq.
    + constructor.
    + exists hf, g. split; [exact Hcl|]. split; [exact Hsf|]. split.
      * apply (snapshot_group_intro _ _ _ _ _ _ _ Egf).
        eapply Forall2_impl; [exact HFf|]. by intros c' sc [? _].
      * apply elem_of_disjoint. intros q Hq Hd.
        apply reach_inv in Hq as [->|(x' & y' & cs' & c' & E' & Hc' & Hq)];
          [by apply Hfr|].
        rewrite Egf in E'. injection E' as <- <- <-.
        destruct (Forall2_elem_l _ _ _ _ HFf Hc') as (sc & _ & _ & Hdis).
        apply (proj1 (elem_of_disjoint _ _) Hdis q Hq).
        apply elem_of_union. by right.
Qed.

Lemma reach_root n h p s : snapshot n h p = Some s -> p ∈ reach n h p.
Proof. destruct n; [discriminate|]. intros _. apply reach_self. Qed.

(** C7. [clone] returns, for a leaf and for a group of any depth, a
    pointer with the value of the original whose objects are disjoint
    from those of the original.  After it, any sequence of [move]s on
    the original or on its descendants leaves the value under the clone
    as it was, at every depth, and any sequence of [move]s on the clone
    or on its descendants leaves the value under the original as it was.
    A [move] of either root is seen under that root only. *)
Theorem clone_independent n h p s :
  snapshot n h p = Some s ->
  exists h' p',
    clone n h p = Some (h', p')
    /\ snapshot n h' p = Some s
    /\ snapshot n h' p' = Some s
    /\ reach n h' p ## reach n h' p'
    /\ (forall ms : list (loc * (Z * Z)),
          (forall m, m ∈ ms -> m.1 ∈ reach n h' p) ->
          snapshot n (moves h' ms) p' = Some s)
    /\ (forall ms : list (loc * (Z * Z)),
          (forall m, m ∈ ms -> m.1 ∈ reach n h' p') ->
          snapshot n (moves h' ms) p = Some s)
    /\ (forall dx dy : Z,
          snapshot n (move h' p dx dy) p = Some (Shape_move dx dy s)
          /\ snapshot n (move h' p dx dy) p' = Some s)
    /\ (forall dx dy : Z,
          snapshot n (move h' p' dx dy) p' = Some (Shape_move dx dy s)
          /\ snapshot n (move h' p' dx dy) p = Some s).
Proof.
  intros H.
  destruct (clone_spec n h p s H) as (h' & p' & Hcl & Hsub & Hs' & Hfresh).
  destruct (snapshot_weaken n h h' p s Hsub H) as [Hs Hr].
  pose proof (reach_dom n h p s H) as Hdom. rewrite <- Hr in Hdom.
  assert (reach n h' p ## reach n h' p') as Hdis.
  { apply elem_of_disjoint. intros q Hq Hq'.
    apply (proj1 (elem_of_disjoint _ _) Hfresh q Hq'). by apply Hdom. }
  assert (forall ms : list (loc * (Z * Z)),
            (forall m, m ∈ ms -> m.1 ∈ reach n h' p) ->
            snapshot n (moves h' ms) p' = Some s) as Hm1.
  { intros ms Hms. apply snapshot_moves_outside; [exact Hs'|].
    intros m Hm Hq. apply (proj1 (elem_of_disjoint _ _) Hdis (m.1)); auto. }
  assert (forall ms : list (loc * (Z * Z)),
            (forall m, m ∈ ms -> m.1 ∈ reach n h' p') ->
            snapshot n (moves h' ms) p = Some s) as Hm2.
  { intros ms Hms. apply snapshot_moves_outside; [exact Hs|].
    intros m Hm Hq. apply (proj1 (elem_of_disjoint _ _) Hdis (m.1)); auto. }
  exists h', p'. repeat split; try assumption.
  - by apply snapshot_move_root.
  - apply (Hm1 [(p, (dx, dy))]).
    intros m ->%list_elem_of_singleton. simpl. by eapply reach_root.
  - by apply snapshot_move_root.
  - apply (Hm2 [(p', (dx, dy))]).
    intros m ->%list_elem_of_singleton. simpl. by eapply reach_root.
Qed.

Lemma clone_independent_witness :
  exists h' p',
    clone 3 Scene.h Scene.group1 = Some (h', p')
    /\ snapshot 3 h' Scene.group1
       = Some (SGroup 2 2 [SRectangle 3 4 2 3; SCircle 1 5 2;
                           SGroup 4 6 [SCircle 0 1 3]])
    /\ snapshot 3 h' p'
       = Some (SGroup 2 2 [SRectangle 3 4 2 3; SCircle 1 5 2;
                           SGroup 4 6 [SCircle 0 1 3]])
    /\ forall dx dy : Z,
         snapshot 3 (move h' Scene.group1 dx dy) p'
         = Some (SGroup 2 2 [SRectangle 3 4 2 3; SCircle 1 5 2;
                             SGroup 4 6 [SCircle 0 1 3]]).
Proof.
  destruct (clone_independent 3 Scene.h Scene.group1
              (SGroup 2 2 [SRectangle 3 4 2 3; SCircle 1 5 2;
                           SGroup 4 6 [SCircle 0 1 3]]))
    as (h' & p' & Hcl & Hs & Hs' & _ & _ & _ & Hmv & _);
    [vm_compute; reflexivity|].
  exists h', p'. repeat split; try assumption.
  intros dx dy. apply Hmv.
Defined.

End Clone.

(** ** The scenario of the program's own scene *)

Section Scenario.

Example wrap_past_max : Int.wrap (Int.max_int + 1) = Int.min_int.
Proof. reflexivity. Qed.

Example radius_square_wraps : Int.mul 46341 46341 = -2147479015.
Proof. reflexivity. Qed.

Example scene_pointers :
  (Scene.c1, Scene.r1, Scene.group1, Scene.group2) = (1, 2, 3, 6)%positive.
Proof. vm_compute. reflexivity. Qed.

Example scene_group1_value :
  snapshot 3 Scene.h Scene.group1
  = Some (SGroup 2 2 [SRectangle 3 4 2 3; SCircle 1 5 2;
                      SGroup 4 6 [SCircle 0 1 3]]).
Proof. vm_compute. reflexivity. Qed.

(** The point (5, 6) is the local point (3, 4) of [group1], on the corner
    of its rectangle. *)
Example scene_hit_rectangle :
  let e := addObject Scene.group1 (addObject Scene.c1 empty_editor) in
  findElementAt 3 Scene.h e 5 6 = Some (Some 4%positive)
  /\ Scene.h !! 4%positive = Some (Rectangle 3 4 2 3).
Proof. vm_compute. split; reflexivity. Qed.

Example scene_miss :
  findElementAt 3 Scene.h Scene.editor 100 100 = Some None.
Proof. vm_compute. reflexivity. Qed.

Example scene_undo_then_redo :
  let e := addObject Scene.group1 (addObject Scene.c1 empty_editor) in
  objects (undo e).1 = [Scene.c1]
  /\ objects (redo (undo e).1).1 = [Scene.c1; Scene.group1].
Proof. vm_compute. split; reflexivity. Qed.

End Scenario.

(** ** More on the history: round trips and sequences *)

Section HistoryMore.

Implicit Types (e : EditorFacade) (c : Command) (l objs : list loc)
  (us rs : list Command).

(** X1. In every state reached from the empty editor in which there is
    something to undo, [undo] followed by [redo] gives back the very same
    editor state, document and both stacks, and writes nothing. *)
Theorem undo_redo_identity (ops : list Op) c (rest : list Command) :
  undoStack (run ops) = c :: rest ->
  (undo (run ops)).2 = []
  /\ redo (undo (run ops)).1 = (run ops, []).
Proof.
  intros Hs. pose proof (history_inv_run ops) as Hinv.
  unfold history_inv in Hinv. rewrite Hs, fmap_cons in Hinv.
  change (objects (run ops) = execute c (rev (cmd_obj <$> rest))) in Hinv.
  destruct (run ops) as [objs us rs]. simpl in *. subst us.
  unfold undo, redo. simpl. split; [reflexivity|].
  rewrite Hinv, cmd_undo_execute. reflexivity.
Qed.

Lemma undo_redo_identity_witness :
  redo (undo (run [OpAdd 1; OpAdd 2; OpUndo; OpAdd 3]%positive)).1
  = (run [OpAdd 1; OpAdd 2; OpUndo; OpAdd 3]%positive, []).
Proof.
  apply (undo_redo_identity [OpAdd 1; OpAdd 2; OpUndo; OpAdd 3]%positive
           (AddCommand 3) [AddCommand 1]).
  reflexivity.
Defined.

(** X2. In any editor state with something to redo, [redo] followed by
    [undo] gives back the very same state and writes nothing. *)
Theorem redo_undo_identity e c (rest : list Command) :
  redoStack e = c :: rest ->
  (redo e).2 = [] /\ undo (redo e).1 = (e, []).
Proof.
  intros Hs. destruct e as [objs us rs]. simpl in Hs. subst rs.
  unfold redo, undo. simpl. by rewrite cmd_undo_execute.
Qed.

Lemma redo_undo_identity_witness :
  undo (redo (mkEditor [1%positive] [AddCommand 1] [AddCommand 2])).1
  = (mkEditor [1%positive] [AddCommand 1] [AddCommand 2], []).
Proof.
  apply (redo_undo_identity (mkEditor [1%positive] [AddCommand 1] [AddCommand 2])
           (AddCommand 2) []).
  reflexivity.
Defined.

(** X3. In every state reached from the empty editor the document and
    the undo stack mirror each other: the document lists the objects of
    the commands on the undo stack from its bottom to its top, so both
    have the same length. *)
Theorem document_mirrors_undo_stack (ops : list Op) :
  objects (run ops) = rev (cmd_obj <$> undoStack (run ops))
  /\ length (objects (run ops)) = length (undoStack (run ops)).
Proof.
  pose proof (history_inv_run ops) as Hinv. unfold history_inv in Hinv.
  split; [exact Hinv|]. by rewrite Hinv, length_rev, length_fmap.
Qed.

Lemma adds_snoc l (o : loc) e : adds (l ++ [o]) e = addObject o (adds l e).
Proof. unfold adds. by rewrite foldl_app. Qed.

Lemma adds_state l e :
  l <> [] ->
  adds l e = mkEditor (objects e ++ l)
               (rev (AddCommand <$> l) ++ undoStack e) [].
Proof.
  induction l as [|o l IH] using rev_ind; intros Hne; [done|].
  rewrite adds_snoc. unfold addObject, execute. simpl.
  rewrite pop_all_nil, fmap_app, rev_app_distr. simpl.
  destruct l as [|o' l'].
  - simpl. reflexivity.
  - rewrite IH by done. simpl. by rewrite <- app_assoc.
Qed.

Lemma undos_S (k : nat) e : undos (S k) e = undos k (undo e).1.
Proof. unfold undos. apply Nat.iter_succ_r. Qed.

Lemma redos_S (k : nat) e : redos (S k) e = redos k (redo e).1.
Proof. unfold redos. apply Nat.iter_succ_r. Qed.

Lemma undos_state l objs us rs :
  undos (length l) (mkEditor (objs ++ l) (rev (AddCommand <$> l) ++ us) rs)
  = mkEditor objs us ((AddCommand <$> l) ++ rs).
Proof.
  revert rs. induction l as [|o l IH] using rev_ind; intros rs;
    [simpl; by rewrite app_nil_r|].
  rewrite length_app. simpl length. rewrite Nat.add_1_r, undos_S.
  rewrite fmap_app, rev_app_distr. simpl.
  unfold undo. simpl. rewrite app_assoc.
  change ((objs ++ l) ++ [o]) with (execute (AddCommand o) (objs ++ l)).
  rewrite cmd_undo_execute, IH. by rewrite <- app_assoc.
Qed.

Lemma redos_state l objs us rs :
  redos (length l) (mkEditor objs us ((AddCommand <$> l) ++ rs))
  = mkEditor (objs ++ l) (rev (AddCommand <$> l) ++ us) rs.
Proof.
  revert objs us. induction l as [|o l IH]; intros objs us.
  - simpl. by rewrite app_nil_r.
  - simpl length. rewrite redos_S. unfold redo. simpl. unfold execute. simpl.
    rewrite IH. by rewrite <- !app_assoc.
Qed.

(** X4. Adding the objects [l] one after the other and then calling
    [undo] as many times restores the document and the undo stack of the
    start, with the undone commands on the redo stack; calling [redo] as
    many times after that gives back the state after the adds. *)
Theorem adds_undos_redos l e :
  objects (undos (length l) (adds l e)) = objects e
  /\ undoStack (undos (length l) (adds l e)) = undoStack e
  /\ (l <> [] ->
      redoStack (undos (length l) (adds l e)) = AddCommand <$> l)
  /\ redos (length l) (undos (length l) (adds l e)) = adds l e.
Proof.
  destruct l as [|o l'] eqn:El; [by repeat split|]. rewrite <- El.
  assert (l <> []) as Hne by (by rewrite El).
  rewrite (adds_state l e Hne), undos_state. simpl.
  split; [reflexivity|]. split; [reflexivity|].
  split; [intros _; apply app_nil_r|]. apply redos_state.
Qed.

Lemma adds_undos_redos_witness :
  redoStack (undos 2 (adds [5; 7]%positive Scene.editor))
  = [AddCommand 5; AddCommand 7].
Proof.
  apply (proj1 (proj2 (proj2 (adds_undos_redos [5; 7]%positive Scene.editor)))).
  discriminate.
Defined.

(** X5. [undo] and [redo] only move the boundary between the document
    and the redo stack: the document followed by the objects waiting to
    be redone stays the same sequence.  For [redo] this holds in any
    state, for [undo] in every state reached from the empty editor.
    [addObject] makes the sequence the document plus the new object and
    drops the objects that were waiting. *)
Theorem timeline_preserved (ops : list Op) :
  timeline (undo (run ops)).1 = timeline (run ops)
  /\ (forall e, timeline (redo e).1 = timeline e)
  /\ (forall e (s : loc), timeline (addObject s e) = objects e ++ [s]).
Proof.
  split; [|split].
  - destruct (undoStack (run ops)) as [|c rest] eqn:Hs.
    + unfold undo. by rewrite Hs.
    + pose proof (history_inv_run ops) as Hinv.
      unfold history_inv in Hinv. rewrite Hs, fmap_cons in Hinv.
      change (objects (run ops) = execute c (rev (cmd_obj <$> rest))) in Hinv.
      unfold undo, timeline. rewrite Hs. simpl.
      rewrite Hinv, cmd_undo_execute. unfold execute.
      by rewrite <- app_assoc.
  - intros [objs us [|c rs]]; [reflexivity|].
    unfold redo, timeline, execute. simpl. by rewrite <- app_assoc.
  - intros e s. unfold timeline, addObject. simpl.
    rewrite pop_all_nil. simpl. by rewrite app_nil_r.
Qed.

End HistoryMore.

(** ** More on hit tests *)

Section HitsMore.

Implicit Types (h : heap) (p g c q : loc) (s : Shape) (n : nat)
  (e : EditorFacade).

Lemma scan_ext {A : Type} (t1 t2 : loc -> option bool)
    (f1 f2 : loc -> option A) (none : option A) (l : list loc) :
  (forall c, c ∈ l -> t1 c = t2 c /\ f1 c = f2 c) ->
  scan t1 f1 none l = scan t2 f2 none l.
Proof.
  induction l as [|c l IH]; intros H; simpl; [reflexivity|].
  destruct (H c (list_elem_of_here _ _)) as [-> ->].
  rewrite IH; [reflexivity|].
  intros c' Hc'. by apply H, list_elem_of_further.
Qed.

Lemma containsPoint_frame n h1 h2 p s (px py : Z) :
  snapshot n h1 p = Some s ->
  (forall q o, q ∈ reach n h1 p -> h1 !! q = Some o -> h2 !! q = Some o) ->
  containsPoint n h2 p px py = containsPoint n h1 p px py.
Proof.
  intros H Hag. destruct (snapshot_frame n h1 h2 p s H Hag) as [H2 _].
  by rewrite (containsPoint_snapshot _ _ _ _ _ _ H),
    (containsPoint_snapshot _ _ _ _ _ _ H2).
Qed.

Lemma is_group_frame h1 h2 p (o : GraphicObject) :
  h1 !! p = Some o -> h2 !! p = Some o -> is_group h2 p = is_group h1 p.
Proof. unfold is_group. by intros -> ->. Qed.

(** [findDeepest] below a well-formed group looks only at the objects
    the group reaches. *)
Lemma findDeepest_frame n h1 h2 g s (px py : Z) :
  snapshot n h1 g = Some s ->
  (forall q o, q ∈ reach n h1 g -> h1 !! q = Some o -> h2 !! q = Some o) ->
  findDeepest n h2 g px py = findDeepest n h1 g px py.
Proof.
  revert g s px py. induction n as [|n IH]; intros g s px py H Hag;
    [discriminate H|].
  destruct (h1 !! g) as [o|] eqn:E; [|simpl in H; by rewrite E in H].
  pose proof (Hag g o (reach_self n h1 g) E) as E2.
  simpl. rewrite E, E2. destruct o as [| |x y cs]; try reflexivity.
  destruct (snapshot_group _ _ _ _ _ _ _ E H) as (ss & _ & HF).
  apply scan_ext. intros c Hc. apply (proj1 (elem_of_rev _ _)) in Hc.
  destruct (Forall2_elem_l _ _ _ _ HF Hc) as (sc & _ & Hsc).
  assert (forall q o, q ∈ reach n h1 c -> h1 !! q = Some o -> h2 !! q = Some o)
    as Hagc.
  { intros q o Hq. apply Hag. by eapply reach_child. }
  split; [by eapply containsPoint_frame|].
  assert (is_Some (h1 !! c)) as [oc Hoc].
  { destruct n; [discriminate Hsc|]. simpl in Hsc.
    destruct (h1 !! c); [eauto|discriminate Hsc]. }
  assert (c ∈ reach n h1 c) as Hcc by (by eapply reach_root).
  rewrite (is_group_frame h1 h2 c oc Hoc (Hagc c oc Hcc Hoc)).
  destruct (is_group h1 c); [|reflexivity]. by eapply IH.
Qed.

(** What [findDeepest] returns is the group or one of its descendants. *)
Lemma findDeepest_reach n h g q (px py : Z) :
  findDeepest n h g px py = Some q -> q ∈ reach n h g.
Proof.
  revert g q px py. induction n as [|n IH]; intros g q px py H; [discriminate H|].
  simpl in H. destruct (h !! g) as [[| |x y cs]|] eqn:E; try discriminate H.
  apply scan_Some in H as [(l1 & c & l2 & Hl & _ & Ht & Hf)|[_ Hn]].
  - assert (c ∈ cs) as Hc.
    { apply elem_of_rev. rewrite Hl. apply elem_of_app. right.
      apply list_elem_of_here. }
    destruct (is_group h c) eqn:Hg.
    + eapply reach_child; [exact E|exact Hc|]. by eapply IH.
    + injection Hf as <-. eapply reach_child; [exact E|exact Hc|].
      destruct n as [|n]; [discriminate Ht|apply reach_self].
  - injection Hn as <-. apply reach_self.
Qed.

(** C3, as the code has it.  The top-level objects are scanned in
    reverse insertion order and the first match wins: the last object of
    the document that contains the point decides, whatever stands before
    it.  So with [A] added before [B], a point inside both and inside no
    object added after [B], [findElementAt] resolves to [B], the later
    one: it returns [B] itself when [B] is a leaf, and when [B] is a
    group it returns what [B]'s [findDeepest] returns, which is a leaf
    reached from [B] and not [B]. *)
Theorem findElementAt_later_added n h e (front mid back : list loc)
    (A B : loc) s (px py : Z) :
  objects e = front ++ A :: mid ++ B :: back ->
  snapshot n h B = Some s ->
  containsPoint n h A px py = Some true ->
  containsPoint n h B px py = Some true ->
  (forall c, c ∈ back -> containsPoint n h c px py = Some false) ->
  (is_group h B = false -> findElementAt n h e px py = Some (Some B))
  /\ (is_group h B = true ->
      exists q, findDeepest n h B px py = Some q
        /\ findElementAt n h e px py = Some (Some q)
        /\ is_group h q = false /\ q <> B /\ q ∈ reach n h B)
  /\ (forall (before after : list loc) (C : loc),
        objects e = before ++ C :: after ->
        containsPoint n h C px py = Some true ->
        (forall c, c ∈ after -> containsPoint n h c px py = Some false) ->
        findElementAt n h e px py
        = if is_group h C then Some <$> findDeepest n h C px py
          else Some (Some C)).
Proof.
  intros Ho Hs HA HB Hback.
  assert (findElementAt n h e px py
          = if is_group h B then Some <$> findDeepest n h B px py
            else Some (Some B)) as Hfind.
  { apply (findElementAt_last_match n h e (front ++ A :: mid) back B);
      [|exact HB|exact Hback].
    rewrite Ho, <- app_assoc. reflexivity. }
  split; [|split].
  - intros Hg. by rewrite Hg in Hfind.
  - intros Hg. rewrite Hg in Hfind.
    destruct (findDeepest_total n h B s px py Hs Hg) as (q & Hq).
    exists q. rewrite Hq in Hfind.
    pose proof (findDeepest_hit_leaf _ _ _ _ _ _ HB Hq) as Hleaf.
    split; [exact Hq|]. split; [exact Hfind|]. split; [exact Hleaf|].
    split; [|by eapply findDeepest_reach].
    intros ->. by rewrite Hg in Hleaf.
  - intros before after C HoC HC Hafter.
    by apply (findElementAt_last_match n h e before after C).
Qed.

Lemma findElementAt_later_added_witness :
  exists q, findDeepest 3 Scene.h Scene.group1 7 6 = Some q
    /\ findElementAt 3 Scene.h Scene.editor 7 6 = Some (Some q)
    /\ is_group Scene.h q = false /\ q <> Scene.group1
    /\ q ∈ reach 3 Scene.h Scene.group1.
Proof.
  assert (objects Scene.editor
          = [] ++ Scene.c1 :: [] ++ Scene.group1 :: [Scene.r1]) as Ho
    by reflexivity.
  assert (snapshot 3 Scene.h Scene.group1
          = Some (SGroup 2 2 [SRectangle 3 4 2 3; SCircle 1 5 2;
                              SGroup 4 6 [SCircle 0 1 3]])) as Hs
    by (vm_compute; reflexivity).
  assert (containsPoint 3 Scene.h Scene.c1 7 6 = Some true) as HA
    by (vm_compute; reflexivity).
  assert (containsPoint 3 Scene.h Scene.group1 7 6 = Some true) as HB
    by (vm_compute; reflexivity).
  assert (forall c, c ∈ [Scene.r1] ->
            containsPoint 3 Scene.h c 7 6 = Some false) as Hback.
  { intros c Hc.
    apply elem_of_cons in Hc as [->|Hc]; [vm_compute; reflexivity|].
    apply elem_of_nil in Hc. destruct Hc. }
  apply (proj1 (proj2 (findElementAt_later_added 3 Scene.h Scene.editor
                         _ _ _ _ _ _ 7 6 Ho Hs HA HB Hback))).
  vm_compute. reflexivity.
Defined.

(** C3 as stated fails when the later shape is a group: in the scene
    that [main] builds, the point (7, 9) lies inside the circle [c1] and
    inside [group1], added after it, and the search returns the circle
    of the inner group, not [group1]. *)
Lemma findElementAt_later_group_counterexample :
  let e := addObject Scene.group1 (addObject Scene.c1 empty_editor) in
  containsPoint 3 Scene.h Scene.c1 7 9 = Some true
  /\ containsPoint 3 Scene.h Scene.group1 7 9 = Some true
  /\ findElementAt 3 Scene.h e 7 9 = Some (Some 7%positive)
  /\ findElementAt 3 Scene.h e 7 9 <> Some (Some Scene.group1).
Proof. vm_compute. repeat split; discriminate. Qed.

(** X6. [findElementAt] returns [nullptr] exactly when every top-level
    object answers that it does not contain the point; in particular on
    an empty document, at every point. *)
Theorem findElementAt_miss n h e (x y : Z) :
  (findElementAt n h e x y = Some None
   <-> forall o, o ∈ objects e -> containsPoint n h o x y = Some false)
  /\ (forall us rs, findElementAt n h (mkEditor [] us rs) x y = Some None).
Proof.
  split; [|reflexivity]. unfold findElementAt. split.
  - intros [(l1 & c & l2 & _ & _ & _ & Hf)|[Hall _]]%scan_Some.
    + destruct (is_group h c); [|discriminate Hf].
      destruct (findDeepest n h c x y); discriminate Hf.
    + intros o Ho. by apply Hall, elem_of_rev.
  - intros Hall. apply scan_no_match.
    intros c Hc. apply (proj1 (elem_of_rev _ _)) in Hc. by apply Hall.
Qed.

(** X7. On a document of well-formed objects [findElementAt] returns,
    and an object it returns is a leaf of the document: a circle or a
    rectangle that is a top-level object containing the point or lies
    below a top-level group containing it. *)
Theorem findElementAt_in_document n h e (x y : Z) :
  (forall o, o ∈ objects e -> is_Some (snapshot n h o)) ->
  exists r, findElementAt n h e x y = Some r
    /\ forall q, r = Some q ->
         is_group h q = false
         /\ exists o, o ∈ objects e /\ q ∈ reach n h o
                      /\ containsPoint n h o x y = Some true.
Proof.
  intros Hwf.
  assert (exists r, findElementAt n h e x y = Some r) as [r Hr].
  { unfold findElementAt.
    assert (forall o, o ∈ rev (objects e) -> is_Some (snapshot n h o)) as Hwf'.
    { intros o Ho. by apply Hwf, elem_of_rev. }
    clear Hwf. induction (rev (objects e)) as [|c l IHl]; simpl; [by eexists|].
    destruct (Hwf' c (list_elem_of_here _ _)) as [sc Hsc].
    rewrite (containsPoint_snapshot _ _ _ _ _ _ Hsc).
    destruct (Shape_contains sc x y).
    - destruct (is_group h c) eqn:Hg; [|by eexists].
      destruct (findDeepest_total n h c sc x y Hsc Hg) as [q ->]. by eexists.
    - apply IHl. intros o Ho. by apply Hwf', list_elem_of_further. }
  exists r. split; [exact Hr|]. intros q ->.
  split; [by eapply findElementAt_leaf|].
  unfold findElementAt in Hr.
  apply scan_Some in Hr as [(l1 & c & l2 & Hl & _ & Hc & Hf)|[_ Hn]];
    [|discriminate Hn].
  exists c. split.
  { apply elem_of_rev. rewrite Hl. apply elem_of_app. right.
    apply list_elem_of_here. }
  split; [|exact Hc].
  destruct (is_group h c).
  - destruct (findDeepest n h c x y) as [q'|] eqn:Hq; [|discriminate Hf].
    injection Hf as <-. by eapply findDeepest_reach.
  - injection Hf as <-. destruct n; [discriminate Hc|apply reach_self].
Qed.

Lemma findElementAt_in_document_witness :
  exists r, findElementAt 3 Scene.h Scene.editor 5 6 = Some r
    /\ forall q, r = Some q ->
         is_group Scene.h q = false
         /\ exists o, o ∈ objects Scene.editor /\ q ∈ reach 3 Scene.h o
                      /\ containsPoint 3 Scene.h o 5 6 = Some true.
Proof.
  apply (findElementAt_in_document 3 Scene.h Scene.editor 5 6).
  intros o Ho.
  apply elem_of_cons in Ho as [->|Ho]; [eexists; vm_compute; reflexivity|].
  apply elem_of_cons in Ho as [->|Ho]; [eexists; vm_compute; reflexivity|].
  apply elem_of_cons in Ho as [->|Ho]; [eexists; vm_compute; reflexivity|].
  by apply elem_of_nil in Ho.
Defined.

(** X8. After [move] of a well-formed group by [(dx, dy)] the search for
    the deepest object at the shifted point returns the same object as
    the search at the point did before, overflow or not. *)
Theorem findDeepest_move_rigid n h g x y (cs : list loc) s (dx dy px py : Z) :
  h !! g = Some (Group x y cs) ->
  snapshot n h g = Some s ->
  findDeepest n (move h g dx dy) g (Int.add px dx) (Int.add py dy)
  = findDeepest n h g px py.
Proof.
  intros E H. destruct n as [|n]; [discriminate H|].
  assert (move h g dx dy !! g = Some (Group (Int.add x dx) (Int.add y dy) cs))
    as E' by (by rewrite move_lookup_eq, E).
  destruct (snapshot_group _ _ _ _ _ _ _ E H) as (ss & _ & HF).
  simpl. rewrite E, E', !sub_add_shift.
  apply scan_ext. intros c Hc. apply (proj1 (elem_of_rev _ _)) in Hc.
  destruct (Forall2_elem_l _ _ _ _ HF Hc) as (sc & _ & Hsc).
  assert (forall q o, q ∈ reach n h c -> h !! q = Some o ->
                      move h g dx dy !! q = Some o) as Hag.
  { intros q o Hq Ho. rewrite move_lookup_ne; [exact Ho|].
    intros ->. revert Hq.
    apply (group_not_below_child n (S n) h g x y cs c E Hc). by eexists. }
  split; [by eapply containsPoint_frame|].
  assert (is_Some (h !! c)) as [oc Hoc].
  { destruct n; [discriminate Hsc|]. simpl in Hsc.
    destruct (h !! c); [eauto|discriminate Hsc]. }
  rewrite (is_group_frame h _ c oc Hoc
             (Hag c oc (reach_root _ _ _ _ Hsc) Hoc)).
  destruct (is_group h c); [|reflexivity]. by eapply findDeepest_frame.
Qed.

Lemma findDeepest_move_rigid_witness :
  findDeepest 3 (move Scene.h Scene.group1 100 (-7)) Scene.group1
    (Int.add 5 100) (Int.add 6 (-7))
  = findDeepest 3 Scene.h Scene.group1 5 6.
Proof.
  apply (findDeepest_move_rigid 3 Scene.h Scene.group1 2 2
           [4; 5; 6]%positive
           (SGroup 2 2 [SRectangle 3 4 2 3; SCircle 1 5 2;
                        SGroup 4 6 [SCircle 0 1 3]]));
    vm_compute; reflexivity.
Defined.

(** X9. [Group::add] puts the new child on top.  For a well-formed
    group [g] and a well-formed object [c] that does not reach [g], after
    [g->add(c)] the group contains a point exactly when [c] contains the
    translated point or the group contained the point before; and when
    [c] contains it, [findDeepest] goes to [c] before any older child. *)
Theorem add_child_on_top n h g x y (cs : list loc) s c sc (px py : Z) :
  h !! g = Some (Group x y cs) ->
  snapshot (S n) h g = Some s ->
  snapshot n h c = Some sc ->
  g ∉ reach n h c ->
  let h' := add h g c in
  let qx := Int.sub px x in
  let qy := Int.sub py y in
  h' !! g = Some (Group x y (cs ++ [c]))
  /\ (exists b bc,
        containsPoint (S n) h g px py = Some b
        /\ containsPoint n h c qx qy = Some bc
        /\ containsPoint (S n) h' g px py = Some (bc || b))
  /\ (containsPoint n h c qx qy = Some true ->
      findDeepest (S n) h' g px py
      = if is_group h c then findDeepest n h c qx qy else Some c).
Proof.
  intros E H Hc Hnr h' qx qy.
  assert (h' = <[g := Group x y (cs ++ [c])]> h) as ->
    by (unfold h'; by apply add_group).
  set (h' := <[g := Group x y (cs ++ [c])]> h).
  assert (h' !! g = Some (Group x y (cs ++ [c]))) as E'
    by apply lookup_insert_eq.
  assert (forall q o, q ∈ reach n h c -> h !! q = Some o -> h' !! q = Some o)
    as Hagc.
  { intros q o Hq Ho. unfold h'. rewrite lookup_insert_ne; [exact Ho|].
    intros <-. by apply Hnr. }
  destruct (snapshot_frame n h h' c sc Hc Hagc) as [Hc' _].
  destruct (snapshot_group _ _ _ _ _ _ _ E H) as (ss & -> & HF).
  assert (snapshot (S n) h' g = Some (SGroup x y (ss ++ [sc]))) as H'.
  { apply (snapshot_group_intro _ _ _ _ _ _ _ E').
    apply Forall2_app; [|by repeat constructor].
    assert (forall l ss',
              Forall2 (fun c sc => snapshot n h c = Some sc) l ss' ->
              (forall c, c ∈ l -> c ∈ cs) ->
              Forall2 (fun c sc => snapshot n h' c = Some sc) l ss') as Hgen.
    { induction 1 as [|d sd l' ss' Hd _ IHF]; intros Hin; [constructor|].
      constructor.
      - apply (snapshot_frame n h); [exact Hd|].
        intros q o Hq Ho. unfold h'. rewrite lookup_insert_ne; [exact Ho|].
        intros <-. revert Hq.
        apply (group_not_below_child n (S n) h g x y cs d E);
          [apply Hin, list_elem_of_here|by eexists].
      - apply IHF. intros d' Hd'. by apply Hin, list_elem_of_further. }
    apply Hgen; [exact HF|auto]. }
  split; [exact E'|]. split.
  - eexists _, _. split; [by apply containsPoint_snapshot|].
    split; [by apply containsPoint_snapshot|].
    rewrite (containsPoint_snapshot _ _ _ _ _ _ H'). f_equal. simpl.
    rewrite existsb_app. simpl. rewrite orb_false_r. apply orb_comm.
  - intros Hhit. simpl. rewrite E', rev_app_distr. simpl.
    rewrite (containsPoint_frame n h h' c sc _ _ Hc Hagc). fold qx qy.
    rewrite Hhit.
    assert (is_Some (h !! c)) as [oc Hoc].
    { destruct n; [discriminate Hc|]. simpl in Hc.
      destruct (h !! c); [eauto|discriminate Hc]. }
    rewrite (is_group_frame h h' c oc Hoc
               (Hagc c oc (reach_root _ _ _ _ Hc) Hoc)).
    destruct (is_group h c); [|reflexivity]. by eapply findDeepest_frame.
Qed.

Lemma add_child_on_top_witness :
  add Scene.h Scene.group2 Scene.r1 !! Scene.group2
  = Some (Group 4 6 ([7%positive] ++ [Scene.r1])).
Proof.
  refine (proj1 (add_child_on_top 1 Scene.h Scene.group2 4 6 [7%positive]
                   (SGroup 4 6 [SCircle 0 1 3]) Scene.r1
                   (SRectangle 5 7 5 6) 0 0 _ _ _ _));
    try (vm_compute; reflexivity).
  apply (proj1 (bool_decide_spec _)). vm_compute. exact I.
Defined.

End HitsMore.

(** ** Leaves: circles and rectangles *)

Section Leaves.

Implicit Types (h : heap) (p : loc) (n : nat).

Lemma in_range_intro (z : Z) : -2147483648 <= z <= 2147483647 -> Int.in_range z.
Proof. intros H. exact H. Qed.

(** X10. The border of a circle belongs to it.  For a circle of radius
    [0 <= r] whose square fits an [int], at a point whose coordinate
    differences fit an [int]: the centre is contained, the point at
    distance [r] to the right of the centre is contained, and the point
    one unit further is not. *)
Theorem circle_border n h p (x y r : Z) :
  h !! p = Some (Circle x y r) ->
  0 <= r -> (r + 1) * (r + 1) <= Int.max_int ->
  Int.in_range x -> Int.in_range y -> Int.in_range (x + r + 1) ->
  containsPoint (S n) h p x y = Some true
  /\ containsPoint (S n) h p (x + r) y = Some true
  /\ containsPoint (S n) h p (x + r + 1) y = Some false.
Proof.
  intros E Hr Hrr Hx Hy Hxr. simpl. rewrite E.
  unfold Int.in_range, Int.min_int, Int.max_int in *.
  assert (forall d, 0 <= d <= r + 1 ->
            Int.add (Int.mul (Int.sub (x + d) x) (Int.sub (x + d) x))
              (Int.mul (Int.sub y y) (Int.sub y y)) = d * d) as Hd.
  { intros d Hd.
    rewrite (sub_exact (x + d) x), (sub_exact y y)
      by (apply in_range_intro; lia).
    replace (x + d - x) with d by lia. rewrite Z.sub_diag.
    rewrite (mul_exact d d), (mul_exact 0 0), add_exact;
      try (apply in_range_intro; nia). lia. }
  rewrite (mul_exact r r) by (apply in_range_intro; nia).
  pose proof (Hd 0) as H0. rewrite Z.add_0_r in H0.
  replace (x + r + 1) with (x + (r + 1)) by lia.
  rewrite H0, (Hd r), (Hd (r + 1)) by lia.
  repeat split; f_equal; [apply Z.leb_le; nia|apply Z.leb_le; lia|].
  apply Z.leb_gt. nia.
Qed.

Lemma circle_border_witness :
  containsPoint 1 Scene.h Scene.c1 10 10 = Some true
  /\ containsPoint 1 Scene.h Scene.c1 (10 + 5) 10 = Some true
  /\ containsPoint 1 Scene.h Scene.c1 (10 + 5 + 1) 10 = Some false.
Proof.
  apply (circle_border 0 Scene.h Scene.c1 10 10 5);
    first [vm_compute; reflexivity | apply in_range_intro; lia
          | unfold Int.max_int; lia | lia].
Defined.

(** X11. A rectangle contains its border, and with a negative width or
    height it contains no point.  When [x + width] and [y + height] fit
    an [int], the rectangle contains exactly the points with
    [x <= px <= x + width] and [y <= py <= y + height]. *)
Theorem rectangle_bounds n h p (x y w hh : Z) :
  h !! p = Some (Rectangle x y w hh) ->
  Int.in_range (x + w) -> Int.in_range (y + hh) ->
  (forall px py : Z,
     containsPoint (S n) h p px py
     = Some (bool_decide (x <= px <= x + w /\ y <= py <= y + hh)))
  /\ (0 <= w -> 0 <= hh ->
      containsPoint (S n) h p x y = Some true
      /\ containsPoint (S n) h p (x + w) (y + hh) = Some true)
  /\ (w < 0 \/ hh < 0 ->
      forall px py : Z, containsPoint (S n) h p px py = Some false).
Proof.
  intros E Hw Hh.
  assert (forall px py : Z,
     containsPoint (S n) h p px py
     = Some (bool_decide (x <= px <= x + w /\ y <= py <= y + hh))) as Hall.
  { intros px py. simpl. rewrite E, !add_exact by assumption. f_equal.
    destruct (bool_decide_reflect (x <= px <= x + w /\ y <= py <= y + hh))
      as [Hin|Hout].
    - rewrite !andb_true_iff, !Z.geb_le, !Z.leb_le. lia.
    - apply not_true_is_false.
      rewrite !andb_true_iff, !Z.geb_le, !Z.leb_le. lia. }
  split; [exact Hall|]. split.
  - intros Hw0 Hh0. rewrite !Hall.
    split; f_equal; apply bool_decide_eq_true; lia.
  - intros Hneg px py. rewrite Hall. f_equal.
    apply bool_decide_eq_false. lia.
Qed.

Lemma rectangle_bounds_witness :
  containsPoint 1 Scene.h Scene.r1 5 7 = Some true
  /\ containsPoint 1 Scene.h Scene.r1 (5 + 5) (7 + 6) = Some true.
Proof.
  refine (proj1 (proj2 (rectangle_bounds 0 Scene.h Scene.r1 5 7 5 6 _ _ _)) _ _);
    first [vm_compute; reflexivity | apply in_range_intro; lia | lia].
Defined.

End Leaves.

(** ** More on [move] *)

Section MoveMore.

Implicit Types (h : heap) (p : loc) (n : nat) (o : GraphicObject).

Lemma add_add_wrap (x a b : Z) :
  Int.add (Int.add x a) b = Int.add x (Int.add a b).
Proof.
  unfold Int.add. apply wrap_congr.
  rewrite Zplus_mod, wrap_mod, <- Zplus_mod.
  rewrite (Zplus_mod x (Int.wrap (a + b))), wrap_mod, <- Zplus_mod.
  f_equal. lia.
Qed.

Lemma move_obj_compose o (a b c d : Z) :
  move_obj c d (move_obj a b o) = move_obj (Int.add a c) (Int.add b d) o.
Proof. destruct o; simpl; by rewrite !add_add_wrap. Qed.

(** X12. Two [move]s of an object are one [move] by the sum of the
    offsets, taken in [int] arithmetic. *)
Theorem move_compose h p (a b c d : Z) :
  move (move h p a b) p c d = move h p (Int.add a c) (Int.add b d).
Proof.
  unfold move at 2 3. destruct (h !! p) as [o|] eqn:E.
  - unfold move. rewrite lookup_insert_eq, insert_insert_eq.
    by rewrite move_obj_compose.
  - unfold move. by rewrite E.
Qed.

(** X13. [move] by [(dx, dy)] followed by [move] by [(-dx, -dy)] gives
    back the store as it was, for an object whose coordinates are
    [int]s, even when the sum in between overflows. *)
Theorem move_back h p o (dx dy : Z) :
  h !! p = Some o ->
  Int.in_range (getX o) -> Int.in_range (getY o) ->
  move (move h p dx dy) p (- dx) (- dy) = h.
Proof.
  intros E Hx Hy. unfold move. rewrite E, lookup_insert_eq, insert_insert_eq.
  rewrite move_obj_compose. apply insert_id. rewrite E. f_equal.
  assert (forall z d, Int.in_range z -> Int.add z (Int.add d (- d)) = z) as Hz.
  { intros z d Hz. unfold Int.add at 2. rewrite Z.add_opp_diag_r.
    rewrite (wrap_in_range 0) by (apply in_range_intro; lia).
    rewrite add_exact; rewrite Z.add_0_r; [reflexivity|exact Hz]. }
  destruct o; simpl in *; by rewrite !Hz.
Qed.

Lemma move_back_witness :
  move (move Scene.h Scene.c1 2147483647 5) Scene.c1 (- 2147483647) (- 5)
  = Scene.h.
Proof.
  apply (move_back Scene.h Scene.c1 (Circle 10 10 5));
    first [vm_compute; reflexivity | apply in_range_intro; simpl; lia].
Defined.

(** X14. A moved leaf takes its points with it.  For a circle this holds
    in [int] arithmetic whatever the offsets; for a rectangle it holds
    when the corners and the point, before and after the shift, fit an
    [int]. *)
Theorem leaf_move_rigid n h p (dx dy px py : Z) :
  (forall x y r, h !! p = Some (Circle x y r) ->
     containsPoint (S n) (move h p dx dy) p (Int.add px dx) (Int.add py dy)
     = containsPoint (S n) h p px py)
  /\ (forall x y w hh, h !! p = Some (Rectangle x y w hh) ->
        Int.in_range (x + dx) -> Int.in_range (y + dy) ->
        Int.in_range (x + w) -> Int.in_range (y + hh) ->
        Int.in_range (x + dx + w) -> Int.in_range (y + dy + hh) ->
        Int.in_range (px + dx) -> Int.in_range (py + dy) ->
        containsPoint (S n) (move h p dx dy) p (Int.add px dx) (Int.add py dy)
        = containsPoint (S n) h p px py).
Proof.
  split.
  - intros x y r E. simpl. rewrite move_lookup_eq, E. simpl.
    by rewrite !sub_add_shift.
  - intros x y w hh E Hx Hy Hw Hh Hxw Hyh Hpx Hpy.
    simpl. rewrite move_lookup_eq, E. simpl.
    rewrite (add_exact x dx), (add_exact y dy), (add_exact px dx),
      (add_exact py dy), (add_exact x w), (add_exact y hh) by assumption.
    rewrite !add_exact by assumption. f_equal.
    apply eq_true_iff_eq.
    rewrite !andb_true_iff, !Z.geb_le, !Z.leb_le. lia.
Qed.

Lemma leaf_move_rigid_witness :
  containsPoint 1 (move Scene.h Scene.r1 3 (-4)) Scene.r1
    (Int.add 6 3) (Int.add 8 (-4))
  = containsPoint 1 Scene.h Scene.r1 6 8.
Proof.
  refine (proj2 (leaf_move_rigid 0 Scene.h Scene.r1 3 (-4) 6 8)
            5 7 5 6 _ _ _ _ _ _ _ _ _);
    first [vm_compute; reflexivity | apply in_range_intro; lia].
Defined.

End MoveMore.

(** ** More on [clone] and on groups that contain themselves *)

Section CloneMore.

Implicit Types (h : heap) (p g c q : loc) (s : Shape) (n : nat).

Lemma add_lookup_ne h g c q : q <> g -> add h g c !! q = h !! q.
Proof.
  intros Hne. unfold add. destruct (h !! g) as [[| |x y cs]|]; try reflexivity.
  by apply lookup_insert_ne.
Qed.

Lemma add_lookup_is_Some h g c : is_Some (h !! g) -> is_Some (add h g c !! g).
Proof.
  unfold add. intros [o E]. rewrite E. destruct o as [| |x y cs]; rewrite ?E;
    try by eexists.
  rewrite lookup_insert_eq. by eexists.
Qed.

Lemma add_size h g c : size (add h g c) = size h.
Proof.
  unfold add. destruct (h !! g) as [[| |x y cs]|] eqn:E; try reflexivity.
  by eapply map_size_insert_Some.
Qed.

(** The loop of [Group::clone] touches no object but the new group and
    the objects it makes. *)
Lemma clone_children_grows n g :
  (forall h p h' p', clone n h p = Some (h', p') ->
     h ⊆ h' /\ (p' ∉ dom h) /\ is_Some (h' !! p')) ->
  forall (cs : list loc) hi hf gf,
    clone_children (clone n) g cs hi = Some (hf, gf) ->
    gf = g
    /\ (forall q o, q <> g -> hi !! q = Some o -> hf !! q = Some o)
    /\ (is_Some (hi !! g) -> is_Some (hf !! g)).
Proof.
  intros IH cs. induction cs as [|c cs IHl]; intros hi hf gf H; simpl in H.
  - injection H as <- <-. by repeat split.
  - destruct (clone n hi c) as [[h' c']|] eqn:Hc; [|discriminate H].
    destruct (IH _ _ _ _ Hc) as (Hsub & _ & _).
    destruct (IHl _ _ _ H) as (-> & Hkeep & Hg).
    split; [reflexivity|]. split.
    + intros q o Hq Ho. apply Hkeep; [exact Hq|].
      rewrite add_lookup_ne by exact Hq. by eapply lookup_weaken.
    + intros [o Ho]. apply Hg, add_lookup_is_Some.
      exists o. by eapply lookup_weaken.
Qed.

Lemma clone_grows n h p h' p' :
  clone n h p = Some (h', p') ->
  h ⊆ h' /\ (p' ∉ dom h) /\ is_Some (h' !! p').
Proof.
  revert h p h' p'. induction n as [|n IH]; intros h p h' p' H; [discriminate H|].
  simpl in H. pose proof (is_fresh (dom h)) as Hfr.
  destruct (h !! p) as [[x y r|x y w hh|x y cs]|] eqn:E; [| | |discriminate H].
  - injection H as <- <-. split; [apply (make_shared_extends h (Circle x y r))|].
    split; [exact Hfr|]. rewrite lookup_insert_eq. by eexists.
  - injection H as <- <-.
    split; [apply (make_shared_extends h (Rectangle x y w hh))|].
    split; [exact Hfr|]. rewrite lookup_insert_eq. by eexists.
  - unfold make_shared in H. set (g := fresh (dom h)) in *.
    destruct (clone_children_grows n g IH _ _ _ _ H) as (-> & Hkeep & Hg).
    split; [|split; [exact Hfr|]].
    + apply map_subseteq_spec. intros q o Ho.
      assert (q <> g) as Hq by (intros ->; apply Hfr, elem_of_dom; eauto).
      apply Hkeep; [exact Hq|]. by rewrite lookup_insert_ne.
    + apply Hg. rewrite lookup_insert_eq. by eexists.
Qed.

(** X15. Whenever [clone] returns, every object that existed before is
    unchanged and the pointer returned is a new object; so every
    well-formed object has the value, the hit tests and the drawing it
    had before. *)
Theorem clone_keeps_store n h p h' p' :
  clone n h p = Some (h', p') ->
  (p' ∉ dom h)
  /\ is_Some (h' !! p')
  /\ (forall q, q ∈ dom h -> h' !! q = h !! q)
  /\ (forall (m : nat) q sq (px py : Z),
        snapshot m h q = Some sq ->
        snapshot m h' q = Some sq
        /\ containsPoint m h' q px py = containsPoint m h q px py).
Proof.
  intros H. destruct (clone_grows _ _ _ _ _ H) as (Hsub & Hfresh & Hnew).
  split; [exact Hfresh|]. split; [exact Hnew|]. split.
  - intros q [o Ho]%elem_of_dom. rewrite Ho. by eapply lookup_weaken.
  - intros m q sq px py Hq.
    destruct (snapshot_weaken m h h' q sq Hsub Hq) as [Hq' _].
    split; [exact Hq'|].
    by rewrite (containsPoint_snapshot _ _ _ _ _ _ Hq),
      (containsPoint_snapshot _ _ _ _ _ _ Hq').
Qed.

Lemma clone_keeps_store_witness :
  exists h' p', clone 3 Scene.h Scene.group1 = Some (h', p')
                /\ (p' ∉ dom Scene.h).
Proof.
  destruct (clone 3 Scene.h Scene.group1) as [[h' p']|] eqn:H;
    [|vm_compute in H; discriminate H].
  exists h', p'. split; [reflexivity|].
  exact (proj1 (clone_keeps_store 3 Scene.h Scene.group1 h' p' H)).
Defined.

End CloneMore.

(** ** Drawing *)

Section Drawing.

Implicit Types (h : heap) (p g c q : loc) (s : Shape) (n k : nat)
  (t u : string).

Lemma append_cons (a : ascii) t u : String a t +:+ u = String a (t +:+ u).
Proof. reflexivity. Qed.

Lemma append_empty_r t : t +:+ "" = t.
Proof. induction t as [|a t IH]; [reflexivity|]. by rewrite append_cons, IH. Qed.

Lemma append_assoc t u (v : string) : (t +:+ u) +:+ v = t +:+ (u +:+ v).
Proof.
  induction t as [|a t IH]; [reflexivity|]. by rewrite !append_cons, IH.
Qed.

Lemma count_endl_app t u : count_endl (t +:+ u) = (count_endl t + count_endl u)%nat.
Proof.
  induction t as [|a t IH]; [reflexivity|].
  rewrite append_cons. simpl. rewrite IH. lia.
Qed.

Lemma count_endl_indent k : count_endl (indent_string k) = 0%nat.
Proof. induction k as [|k IH]; [reflexivity|]. simpl. exact IH. Qed.

Lemma count_endl_pretty_N_go (x : N) t :
  count_endl (pretty_N_go x t) = count_endl t.
Proof.
  revert t. induction (N.lt_wf_0 x) as [x _ IH]; intros t.
  destruct (decide (x = 0)%N) as [->|Hx]; [by rewrite pretty_N_go_0|].
  rewrite pretty_N_go_step by lia.
  rewrite IH by (apply N.div_lt; lia).
  simpl. unfold pretty_N_char. by repeat case_match.
Qed.

Lemma count_endl_pretty (z : Z) : count_endl (pretty z) = 0%nat.
Proof.
  assert (forall x : N, count_endl (pretty x) = 0%nat) as HN.
  { intros x. unfold pretty, pretty_N. case_decide; [reflexivity|].
    apply count_endl_pretty_N_go. }
  destruct z as [|x|x]; [reflexivity|apply (HN (N.pos x))|].
  unfold pretty, pretty_Z. rewrite count_endl_app. apply (HN (N.pos x)).
Qed.

Lemma draw_children_values {B : Type} (dr : loc -> option string)
    (f : B -> string) (cs : list loc) (bs : list B) :
  Forall2 (fun c b => dr c = Some (f b)) cs bs ->
  draw_children dr cs = Some (foldr (fun b ts => f b +:+ ts) "" bs).
Proof.
  induction 1 as [|c b cs bs Hc _ IH]; simpl; [reflexivity|].
  by rewrite Hc, IH.
Qed.

(** On a well-formed object graph [draw] returns, and the text is a
    function of the value under the pointer. *)
Lemma draw_snapshot n h p s k :
  snapshot n h p = Some s -> draw n h p k = Some (Shape_draw s k).
Proof.
  revert p s k. induction n as [|n IH]; intros p s k H; [discriminate H|].
  destruct (h !! p) as [[x y r|x y w hh|x y cs]|] eqn:E.
  - simpl in *. rewrite E in *. by injection H as <-.
  - simpl in *. rewrite E in *. by injection H as <-.
  - destruct (snapshot_group _ _ _ _ _ _ _ E H) as (ss & -> & HF).
    simpl. rewrite E.
    rewrite (draw_children_values _ (fun sc => Shape_draw sc (S k)) cs ss);
      [reflexivity|].
    eapply Forall2_impl; [exact HF|]. intros c sc. apply IH.
  - simpl in H. by rewrite E in H.
Qed.

Lemma Shape_draw_lines n h p s k :
  snapshot n h p = Some s -> count_endl (Shape_draw s k) = Shape_size s.
Proof.
  revert p s k. induction n as [|n IH]; intros p s k H; [discriminate H|].
  destruct (h !! p) as [[x y r|x y w hh|x y cs]|] eqn:E.
  - simpl in H. rewrite E in H. injection H as <-. simpl.
    rewrite !count_endl_app, !count_endl_pretty, count_endl_indent.
    reflexivity.
  - simpl in H. rewrite E in H. injection H as <-. simpl.
    rewrite !count_endl_app, !count_endl_pretty, count_endl_indent.
    reflexivity.
  - destruct (snapshot_group _ _ _ _ _ _ _ E H) as (ss & -> & HF).
    simpl. rewrite !count_endl_app, !count_endl_pretty, count_endl_indent.
    simpl. f_equal.
    clear E H. induction HF as [|c sc cs ss Hc _ IHF]; [reflexivity|].
    simpl. rewrite count_endl_app, IHF. f_equal. by eapply IH.
  - simpl in H. by rewrite E in H.
Qed.

(** X16. [draw] writes one line for each object of a well-formed graph:
    it returns, and the number of line ends in its text is the number of
    objects in the tree under the pointer, at any indentation. *)
Theorem draw_one_line_per_object n h p s k :
  snapshot n h p = Some s ->
  exists t, draw n h p k = Some t /\ count_endl t = Shape_size s.
Proof.
  intros H. exists (Shape_draw s k).
  split; [by apply draw_snapshot|by eapply Shape_draw_lines].
Qed.

Lemma draw_one_line_per_object_witness :
  exists t, draw 3 Scene.h Scene.group1 0 = Some t /\ count_endl t = 5%nat.
Proof.
  apply (draw_one_line_per_object 3 Scene.h Scene.group1
           (SGroup 2 2 [SRectangle 3 4 2 3; SCircle 1 5 2;
                        SGroup 4 6 [SCircle 0 1 3]]) 0).
  vm_compute. reflexivity.
Defined.

(** X17. A clone answers like its original: on a well-formed graph
    [clone] returns a pointer with the same hit test at every point and
    the same drawing at every indentation as the original, which keeps
    both. *)
Theorem clone_same_answers n h p s :
  snapshot n h p = Some s ->
  exists h' p',
    clone n h p = Some (h', p')
    /\ p' <> p
    /\ (forall px py : Z,
          containsPoint n h' p' px py = containsPoint n h p px py
          /\ containsPoint n h' p px py = containsPoint n h p px py)
    /\ (forall k,
          draw n h' p' k = draw n h p k /\ draw n h' p k = draw n h p k).
Proof.
  intros H.
  destruct (clone_spec n h p s H) as (h' & p' & Hcl & Hsub & Hs' & Hfresh).
  destruct (snapshot_weaken n h h' p s Hsub H) as [Hs _].
  exists h', p'. split; [exact Hcl|]. split; [|split].
  - intros ->. apply (proj1 (elem_of_disjoint _ _) Hfresh p).
    + by eapply reach_root.
    + apply (reach_dom n h p s H). by eapply reach_root.
  - intros px py.
    by rewrite (containsPoint_snapshot _ _ _ _ _ _ H),
      (containsPoint_snapshot _ _ _ _ _ _ Hs),
      (containsPoint_snapshot _ _ _ _ _ _ Hs').
  - intros k.
    by rewrite (draw_snapshot _ _ _ _ k H), (draw_snapshot _ _ _ _ k Hs),
      (draw_snapshot _ _ _ _ k Hs').
Qed.

Lemma clone_same_answers_witness :
  exists h' p',
    clone 3 Scene.h Scene.group1 = Some (h', p')
    /\ p' <> Scene.group1
    /\ (forall px py : Z,
          containsPoint 3 h' p' px py = containsPoint 3 Scene.h Scene.group1 px py
          /\ containsPoint 3 h' Scene.group1 px py
             = containsPoint 3 Scene.h Scene.group1 px py)
    /\ (forall k : nat,
          draw 3 h' p' k = draw 3 Scene.h Scene.group1 k
          /\ draw 3 h' Scene.group1 k = draw 3 Scene.h Scene.group1 k).
Proof.
  apply (clone_same_answers 3 Scene.h Scene.group1
           (SGroup 2 2 [SRectangle 3 4 2 3; SCircle 1 5 2;
                        SGroup 4 6 [SCircle 0 1 3]])).
  vm_compute. reflexivity.
Defined.

End Drawing.

(** ** Groups that contain themselves, and how much [clone] allocates *)

Section Cycles.

Implicit Types (h : heap) (p g c q : loc) (s : Shape) (n k : nat).

Lemma draw_children_None (dr : loc -> option string) (cs : list loc) c :
  c ∈ cs -> dr c = None -> draw_children dr cs = None.
Proof.
  induction cs as [|d cs IH]; intros Hc Hn; [by apply elem_of_nil in Hc|].
  simpl. apply elem_of_cons in Hc as [->|Hc]; [by rewrite Hn|].
  destruct (dr d); [|reflexivity]. by rewrite IH.
Qed.

Lemma draw_self_child n h g x y (cs : list loc) k :
  h !! g = Some (Group x y cs) -> g ∈ cs -> draw n h g k = None.
Proof.
  intros E Hg. revert k. induction n as [|n IH]; intros k; [reflexivity|].
  simpl. rewrite E.
  by rewrite (draw_children_None _ cs g Hg (IH (S k))).
Qed.

Lemma clone_self_child n g x y (cs : list loc) :
  g ∈ cs ->
  forall h, h !! g = Some (Group x y cs) -> clone n h g = None.
Proof.
  intros Hg. induction n as [|n IH]; intros h E; [reflexivity|].
  simpl. rewrite E. unfold make_shared.
  set (ng := fresh (dom h)).
  assert (ng <> g) as Hng.
  { intros Heq. apply (is_fresh (dom h)). fold ng. rewrite Heq.
    apply elem_of_dom. eauto. }
  assert (forall (l : list loc) hi,
            g ∈ l -> hi !! g = Some (Group x y cs) ->
            clone_children (clone n) ng l hi = None) as Hloop.
  { induction l as [|c l IHl]; intros hi Hl Ei; [by apply elem_of_nil in Hl|].
    simpl. destruct (clone n hi c) as [[h' c']|] eqn:Hc; [|reflexivity].
    apply elem_of_cons in Hl as [->|Hl]; [by rewrite (IH hi Ei) in Hc|].
    apply IHl; [exact Hl|].
    rewrite add_lookup_ne by (intros Heq; by apply Hng).
    destruct (clone_grows _ _ _ _ _ Hc) as (Hsub & _ & _).
    by eapply lookup_weaken. }
  apply Hloop; [exact Hg|]. rewrite lookup_insert_ne; [exact E|exact Hng].
Qed.

(** X18. [Group::add] does not refuse to add a group to itself, and on
    the group that results no traversal returns: not [containsPoint], not
    [findDeepest], not [draw], not [clone], however many nested calls
    are allowed. *)
Theorem self_add_never_returns n h g x y (cs : list loc) (px py : Z) k :
  h !! g = Some (Group x y cs) ->
  let h' := add h g g in
  h' !! g = Some (Group x y (cs ++ [g]))
  /\ containsPoint n h' g px py = None
  /\ findDeepest n h' g px py = None
  /\ draw n h' g k = None
  /\ clone n h' g = None.
Proof.
  intros E h'.
  assert (h' !! g = Some (Group x y (cs ++ [g]))) as E'.
  { unfold h'. rewrite (add_group _ _ _ _ _ _ E). apply lookup_insert_eq. }
  assert (g ∈ cs ++ [g]) as Hg
    by (apply elem_of_app; right; apply list_elem_of_here).
  assert (forall m (qx qy : Z), containsPoint m h' g qx qy = None) as Hcp.
  { induction m as [|m IH]; intros qx qy; [reflexivity|].
    simpl. rewrite E', rev_app_distr. simpl. by rewrite IH. }
  split; [exact E'|]. split; [apply Hcp|]. split; [|split].
  - destruct n as [|n]; [reflexivity|].
    simpl. rewrite E', rev_app_distr. simpl. by rewrite Hcp.
  - by eapply draw_self_child.
  - by eapply clone_self_child.
Qed.

Lemma self_add_never_returns_witness :
  containsPoint 1000 (add Scene.h Scene.group2 Scene.group2) Scene.group2 4 7
  = None.
Proof.
  refine (proj1 (proj2 (self_add_never_returns 1000 Scene.h Scene.group2 4 6
                          [7%positive] 4 7 0 _))).
  vm_compute. reflexivity.
Defined.

Lemma clone_children_size n g h0 :
  (forall h p s h' p', snapshot n h p = Some s ->
     clone n h p = Some (h', p') -> size h' = (size h + Shape_size s)%nat) ->
  g ∉ dom h0 ->
  forall (cs : list loc) (ss : list Shape),
    Forall2 (fun c sc => snapshot n h0 c = Some sc) cs ss ->
    forall hi hf gf,
      h0 ⊆ hi ->
      clone_children (clone n) g cs hi = Some (hf, gf) ->
      size hf = (size hi + foldr (fun sc m => Shape_size sc + m)%nat O ss)%nat.
Proof.
  intros IH Hg cs ss HF.
  induction HF as [|c sc cs ss Hc _ IHl]; intros hi hf gf Hsub H; simpl in H.
  - injection H as <- _. simpl. lia.
  - destruct (clone n hi c) as [[h' c']|] eqn:Hcl; [|discriminate H].
    destruct (snapshot_weaken n h0 hi c sc Hsub Hc) as [Hci _].
    pose proof (IH _ _ _ _ _ Hci Hcl) as Hsz.
    destruct (clone_grows _ _ _ _ _ Hcl) as (Hsub' & _ & _).
    assert (h0 ⊆ add h' g c') as Hsub2.
    { apply map_subseteq_spec. intros q o Ho.
      rewrite add_lookup_ne.
      - eapply lookup_weaken; [|exact Hsub']. by eapply lookup_weaken.
      - intros ->. apply Hg, elem_of_dom. eauto. }
    rewrite (IHl _ _ _ Hsub2 H), add_size, Hsz. simpl. lia.
Qed.

Lemma clone_size n h p s h' p' :
  snapshot n h p = Some s -> clone n h p = Some (h', p') ->
  size h' = (size h + Shape_size s)%nat.
Proof.
  revert h p s h' p'. induction n as [|n IH]; intros h p s h' p' H Hcl;
    [discriminate H|].
  pose proof (is_fresh (dom h)) as Hfr.
  assert (h !! fresh (dom h) = None) as Hnone by (by apply not_elem_of_dom).
  destruct (h !! p) as [[x y r|x y w hh|x y cs]|] eqn:E.
  - simpl in *. rewrite E in *. injection H as <-. injection Hcl as <- _.
    rewrite (map_size_insert_None _ _ _ Hnone). simpl. lia.
  - simpl in *. rewrite E in *. injection H as <-. injection Hcl as <- _.
    rewrite (map_size_insert_None _ _ _ Hnone). simpl. lia.
  - destruct (snapshot_group _ _ _ _ _ _ _ E H) as (ss & -> & HF).
    simpl in Hcl. rewrite E in Hcl. unfold make_shared in Hcl.
    rewrite (clone_children_size n _ h IH Hfr cs ss HF _ _ _
               (insert_subseteq _ _ _ Hnone) Hcl).
    rewrite (map_size_insert_None _ _ _ Hnone). simpl. lia.
  - simpl in H. by rewrite E in H.
Qed.

(** X19. [clone] makes exactly one new object for every object in the
    tree of the value it copies, also where the original reaches one
    child along two paths: the clone shares nothing, not even within
    itself. *)
Theorem clone_allocates n h p s :
  snapshot n h p = Some s ->
  exists h' p', clone n h p = Some (h', p')
                /\ size h' = (size h + Shape_size s)%nat.
Proof.
  intros H.
  destruct (clone_spec n h p s H) as (h' & p' & Hcl & _).
  exists h', p'. split; [exact Hcl|]. by eapply clone_size.
Qed.

Lemma clone_allocates_witness :
  let h := add (add Scene.h Scene.group2 Scene.c1) Scene.group2 Scene.c1 in
  exists h' p', clone 2 h Scene.group2 = Some (h', p')
                /\ size h' = (size h + 4)%nat.
Proof.
  intros h.
  apply (clone_allocates 2 h Scene.group2
           (SGroup 4 6 [SCircle 0 1 3; SCircle 10 10 5; SCircle 10 10 5])).
  vm_compute. reflexivity.
Defined.

End Cycles.

(** ** Printing the document *)

Section Printing.

Implicit Types (h : heap) (e : EditorFacade) (n : nat) (t u : string).

Lemma draw_children_app (dr : loc -> option string) (l1 l2 : list loc) :
  draw_children dr (l1 ++ l2)
  = match draw_children dr l1, draw_children dr l2 with
    | Some a, Some b => Some (a +:+ b)
    | _, _ => None
    end.
Proof.
  induction l1 as [|c l1 IH]; simpl.
  - by destruct (draw_children dr l2).
  - destruct (dr c) as [t|]; [|reflexivity]. rewrite IH.
    destruct (draw_children dr l1) as [a|]; [|reflexivity].
    destruct (draw_children dr l2) as [b|]; [|reflexivity].
    by rewrite append_assoc.
Qed.

(** X20. [print] writes the top-level objects in the order they were
    added.  On an empty document it writes the empty-document message;
    after [addObject s] it writes what it wrote before (nothing, for an
    empty document) followed by the drawing of [s]; and after a
    following [undo] it writes again what it wrote before the add. *)
Theorem print_after_add n h e (s : loc) ts :
  draw n h s 0 = Some ts ->
  (objects e = [] ->
   print n h e = Some msg_empty /\ print n h (addObject s e) = Some ts)
  /\ (forall t, objects e <> [] -> print n h e = Some t ->
        print n h (addObject s e) = Some (t +:+ ts))
  /\ print n h (undo (addObject s e)).1 = print n h e.
Proof.
  intros Hs.
  assert (forall l, l <> [] ->
            match l ++ [s] with
            | [] => Some msg_empty
            | _ :: _ => draw_children (fun obj => draw n h obj 0) (l ++ [s])
            end
            = match draw_children (fun obj => draw n h obj 0) l with
              | Some a => Some (a +:+ ts)
              | None => None
              end) as Hne.
  { intros l Hl. destruct (l ++ [s]) eqn:El; [by destruct l|]. rewrite <- El.
    rewrite draw_children_app. simpl. rewrite Hs. simpl.
    by rewrite append_empty_r. }
  split; [|split].
  - intros He. unfold print, addObject, execute. simpl. rewrite He. simpl.
    rewrite Hs. by rewrite append_empty_r.
  - intros t He Ht. unfold print in *. unfold addObject, execute. simpl.
    rewrite (Hne _ He). destruct (objects e); [done|]. by rewrite Ht.
  - unfold print, undo. simpl. by rewrite cmd_undo_execute.
Qed.

Lemma print_after_add_witness :
  print 3 Scene.h
    (addObject Scene.r1 (addObject Scene.group1 (addObject Scene.c1 empty_editor)))
  = (fun t ts => Some (t +:+ ts))
      "Circle (10, 10) R=5
Group (2, 2)
+Rectangle (3, 4) 2*3
+Circle (1, 5) R=2
+Group (4, 6)
++Circle (0, 1) R=3
" "Rectangle (5, 7) 5*6
".
Proof.
  refine (proj1 (proj2 (print_after_add 3 Scene.h
            (addObject Scene.group1 (addObject Scene.c1 empty_editor))
            Scene.r1 _ _)) _ _ _).
  - vm_compute. reflexivity.
  - discriminate.
  - vm_compute. reflexivity.
Defined.

End Printing.

(** ** Reading shapes from the console *)

Section ConsoleFacts.

Variable parse_int : string -> option Z.

Implicit Types (h : heap) (cin rest bad : list string) (out : list string)
  (prompt complaint line : string) (v : Z) (fuel : nat).


(** X21. [readInt] returns the value of the first line that parses and
    leaves the lines after it; for every line it skips it writes the
    prompt and the complaint, then the prompt once more.  When no line
    parses, and the empty line does not either, it never returns. *)
Theorem readInt_first_parsable prompt bad line rest v :
  (forall l, l ∈ bad -> parse_int l = None) ->
  parse_int line = Some v ->
  readInt parse_int prompt (bad ++ line :: rest)
  = Some (v, rest,
          flat_map (fun _ => [prompt; msg_bad_number]) bad ++ [prompt])
  /\ (parse_int "" = None -> readInt parse_int prompt bad = None).
Proof.
  intros Hbad Hline. split.
  - induction bad as [|b bad IH]; simpl; [by rewrite Hline|].
    rewrite (Hbad b) by apply list_elem_of_here.
    rewrite IH; [reflexivity|].
    intros l Hl. by apply Hbad, list_elem_of_further.
  - intros Hempty. clear Hline. induction bad as [|b bad IH]; simpl;
      [by rewrite Hempty|].
    rewrite (Hbad b) by apply list_elem_of_here.
    rewrite IH; [reflexivity|].
    intros l Hl. by apply Hbad, list_elem_of_further.
Qed.






End ConsoleFacts.

Lemma readInt_first_parsable_witness :
  readInt parse_digit "? " (["abc"; ""] ++ "7" :: ["x"])
  = Some (7, ["x"],
          flat_map (fun _ => ["? "; msg_bad_number]) ["abc"; ""] ++ ["? "]).
Proof.
  refine (proj1 (readInt_first_parsable parse_digit "? " ["abc"; ""] "7" ["x"] 7
                   _ _)); [|reflexivity].
  intros l Hl.
  apply elem_of_cons in Hl as [->|Hl]; [reflexivity|].
  apply elem_of_cons in Hl as [->|Hl]; [reflexivity|].
  by apply elem_of_nil in Hl.
Defined.


